(** * Partser: a shallow embedding of the parser-combinator engine

    Source: [src/node_modules/partser/index.js].

    The development follows the source file top to bottom: JavaScript values
    and strings, parse results and [mergeOver], the error formatter, the
    store of parser objects (a parser is an object whose [behaviour] field
    can be rebound by [replace]), the primitive parsers and the combinators,
    and finally the properties of the specification. *)

From Stdlib Require Import ZArith String Ascii List Lia DecimalString.
From stdpp Require Import base gmap.

Open Scope string_scope.
Open Scope Z_scope.

#[local] Set Warnings "-register-all".

(** ** JavaScript values *)

(** The values a parser can produce, and the environment a caller threads
    through a parse.  Numbers are the integers (cursor positions, counts);
    floating point is outside the model. *)
Inductive Value : Type :=
| VUndefined
| VNull
| VBool (b : bool)
| VNum (n : Z)
| VStr (s : string)
| VArr (xs : list Value)
| VObj (fields : list (string * Value)).

Definition Env : Type := Value.

(** ** Strings

    A JavaScript string is modelled by [string]; its characters stand for
    the code units of the source string. *)
Module Str.

Definition len (s : string) : Z := Z.of_nat (String.length s).

(** The relative-index rule shared by [String.prototype.slice]'s two
    arguments: a negative index counts from the end, and both ends are
    clamped to the string. *)
Definition relIndex (L k : Z) : Z :=
  if k <? 0 then Z.max (L + k) 0 else Z.min k L.

(** [input.slice(start, stop)] *)
Definition slice (s : string) (start stop : Z) : string :=
  let from := relIndex (len s) start in
  let to := relIndex (len s) stop in
  substring (Z.to_nat from) (Z.to_nat (Z.max (to - from) 0)) s.

(** [input.slice(start)] *)
Definition sliceFrom (s : string) (start : Z) : string :=
  slice s start (len s).

(** [input.charAt(i)]: the empty string outside the string. *)
Definition charAt (s : string) (i : Z) : string :=
  if (0 <=? i) && (i <? len s) then substring (Z.to_nat i) 1 s else "".

(** [xs.join(sep)], with [f] turning an element into its text. *)
Definition joinWith {A : Type} (f : A -> string) (sep : string)
  : list A -> string :=
  fix go (xs : list A) : string :=
    match xs with
    | [] => ""
    | [x] => f x
    | x :: rest => f x ++ sep ++ go rest
    end.

(** The decimal text of an integer, as a template literal prints it. *)
Definition ofZ (z : Z) : string := NilZero.string_of_int (Z.to_int z).

(** [s.split(sep)] for a one-character separator: the pieces between the
    separators, at least one piece. *)
Fixpoint splitOn (sep : ascii) (s : string) : list string :=
  match s with
  | EmptyString => [""]
  | String c rest =>
      if Ascii.eqb c sep then "" :: splitOn sep rest
      else match splitOn sep rest with
           | [] => [String c ""]
           | piece :: pieces => String c piece :: pieces
           end
  end.

End Str.

(** [String(v)], the coercion a template literal and [+] with a string
    apply.  Inside [join], [undefined] and [null] print as nothing. *)
Fixpoint toString (v : Value) : string :=
  match v with
  | VUndefined => "undefined"
  | VNull => "null"
  | VBool true => "true"
  | VBool false => "false"
  | VNum n => Str.ofZ n
  | VStr s => s
  | VArr xs =>
      Str.joinWith
        (fun x => match x with
                  | VUndefined | VNull => ""
                  | _ => toString x
                  end) "," xs
  | VObj _ => "[object Object]"
  end.

(** The text of one element inside [Array.prototype.join]. *)
Definition elementText (x : Value) : string :=
  match x with
  | VUndefined | VNull => ""
  | _ => toString x
  end.

(** [xs.join(sep)] on an array of values. *)
Definition join (sep : string) (xs : list Value) : string :=
  Str.joinWith elementText sep xs.

(** ** Parse results *)

(** The object [{ status, index, value }].  A success carries the produced
    value; a failure carries the array of expected descriptions. *)
Inductive Result : Type :=
| Success (index : Z) (value : Value)
| Failure (index : Z) (expected : list Value).

Definition status (r : Result) : bool :=
  match r with Success _ _ => true | Failure _ _ => false end.

Definition index (r : Result) : Z :=
  match r with Success i _ => i | Failure i _ => i end.

Definition value (r : Result) : Value :=
  match r with Success _ v => v | Failure _ e => VArr e end.

Definition makeSuccess (index : Z) (value : Value) : Result :=
  Success index value.

Definition makeFailure (index : Z) (expected : string) : Result :=
  Failure index [VStr expected].

(** [xs.concat(v)]: an array argument is spread, anything else is appended
    as one element. *)
Definition arrayConcat (xs : list Value) (v : Value) : list Value :=
  match v with
  | VArr ys => xs ++ ys
  | _ => xs ++ [v]
  end.

Module MergeOver.

Definition furthest (result : Result) : Z :=
  if status result then -1 else index result.

Definition expected (result : Result) : Value := value result.

End MergeOver.

(** [mergeOver(next, previous)]; [previous] is [None] while the caller's
    variable is still [undefined].  The second branch is only reached with
    [next] a failure, whose [value] is its array of descriptions. *)
Definition mergeOver (next : Result) (previous : option Result) : Result :=
  match previous with
  | None => next
  | Some previous =>
      if status next || (MergeOver.furthest next >? MergeOver.furthest previous)
      then next
      else
        match next with
        | Success _ _ => next
        | Failure i e =>
            Failure i (arrayConcat e (MergeOver.expected previous))
        end
  end.

(** ** Error formatting *)

Definition formatExpected (expected : list Value) : Value :=
  match expected with
  | [e] => e
  | _ => VStr ("one of " ++ join ", " expected)
  end.

Definition amountOfContext : Z := 10.

Definition formatGot (input : string) (error : Result) : string :=
  let i := index error in
  let where_ := "at character " ++ Str.ofZ i in
  if i =? Str.len input then where_ ++ ", got end of input"
  else
    let remainingCharsInInput := Str.len input - i in
    let actualValue := Str.slice input i (i + amountOfContext) in
    let actualValue :=
      if remainingCharsInInput >? i + amountOfContext
      then actualValue ++ "..." else actualValue in
    where_ ++ ", got '" ++ actualValue ++ "'".

(** [error.value] read as the array [formatExpected] is given; the
    function is documented for the result of a failed parse. *)
Definition descriptions (error : Result) : list Value :=
  match value error with
  | VArr e => e
  | _ => []
  end.

Definition formatError (input : string) (error : Result) : string :=
  "expected " ++ toString (formatExpected (descriptions error))
              ++ " " ++ formatGot input error.

(** ** Outcomes of running JavaScript code

    A call returns, throws, or does not return.  [Diverge] is what the
    fuel-indexed model gives when the fuel does not suffice. *)

Inductive Exn : Type :=
| TypeError (msg : string).

Inductive Outcome (A : Type) : Type :=
| Ret (a : A)
| Throw (e : Exn)
| Diverge.

Arguments Ret {A} a.
Arguments Throw {A} e.
Arguments Diverge {A}.

#[global] Instance Outcome_ret : MRet Outcome := fun _ a => Ret a.

#[global] Instance Outcome_bind : MBind Outcome := fun _ _ k m =>
  match m with
  | Ret a => k a
  | Throw e => Throw e
  | Diverge => Diverge
  end.

(** ** Parser objects and the store

    [Parser(name, behaviour)] makes a fresh function object with the fields
    [behaviour] and [displayName] and registers it in [parsersMap].  A
    combinator keeps references to its sub-parsers and reads their
    [behaviour] field on every call, so the objects live in a store indexed
    by identity.  The domain of the store is [parsersMap].

    A behaviour receives [call], the way to invoke another parser's [_]
    entry by identity, and an iteration budget for its own loops.  The
    fourth argument of the source ([debugHandler]) only logs and is left
    out: every parser is modelled as called without a tracer. *)

Abbreviation loc := positive.

Definition Call : Type := loc -> string -> Z -> Env -> Outcome Result.

Definition Behaviour : Type :=
  nat -> Call -> string -> Z -> Env -> Outcome Result.

Record ParserObj : Type := mkParserObj {
  displayName : string;
  behaviour : Behaviour
}.

Abbreviation Store := (gmap loc ParserObj).

Definition isParser (p : loc) (st : Store) : bool :=
  bool_decide (is_Some (st !! p)).

(** [assertParser(functionName, value)].  The thrown message ends with the
    object tag of the offending value, which is not modelled. *)
Definition assertParser (functionName : string) (value : loc) (st : Store)
  : Outcome unit :=
  if isParser value st then Ret tt
  else Throw (TypeError ("Partser." ++ functionName ++ ": Not a parser")).

(** [parsers.forEach((x) => assertParser(functionName, x))] *)
Fixpoint assertParsers (functionName : string) (parsers : list loc)
  (st : Store) : Outcome unit :=
  match parsers with
  | [] => Ret tt
  | x :: rest =>
      _ ← assertParser functionName x st;
      assertParsers functionName rest st
  end.

(** The base constructor: allocate the object, set its fields, register
    it, return it. *)
Definition Parser (name : string) (behaviour : Behaviour) (st : Store)
  : loc * Store :=
  let parser := fresh (dom st) in
  (parser, <[parser := mkParserObj name behaviour]> st).

(** [parser._(input, index, env)]: run the behaviour currently stored in
    the parser object.  Calling [_] on a value that is not a parser is a
    [TypeError] of the runtime. *)
Fixpoint partialMatch (fuel : nat) (st : Store) (parser : loc)
  (input : string) (index : Z) (env : Env) : Outcome Result :=
  match fuel with
  | O => Diverge
  | S fuel' =>
      match st !! parser with
      | None => Throw (TypeError "Not a parser")
      | Some o =>
          behaviour o fuel' (partialMatch fuel' st) input index env
      end
  end.

(** ** Behaviours of the primitive parsers *)

(** The double-quote character, for display names. *)
Definition dquote : string := String (ascii_of_nat 34) EmptyString.

(** [JSON.stringify(str)] for display names: the text between double
    quotes.  The escapes of JSON are not modelled; display names are read
    by the tracer only. *)
Definition stringify (str : string) : string := dquote ++ str ++ dquote.

Definition string_behaviour (str : string) : Behaviour :=
  let len := Str.len str in
  let expected := "'" ++ str ++ "'" in
  fun _ _ input i _ =>
    let head := Str.slice input i (i + len) in
    if String.eqb head str then Ret (makeSuccess (i + len) (VStr head))
    else Ret (makeFailure i expected).

(** A regular expression of the runtime: its text [`${re}`] and the
    matcher of the anchored copy the constructor builds, which returns
    the full match and the captures of groups 1, 2, ... or nothing. *)
Record RegExp : Type := mkRegExp {
  re_text : string;
  anchored_exec : string -> option (string * list Value)
}.

(** [match[group]] *)
Definition matchGroup (fullMatch : string) (groups : list Value) (group : Z)
  : Value :=
  if group =? 0 then VStr fullMatch
  else if group <? 0 then VUndefined
  else nth (Z.to_nat (group - 1)) groups VUndefined.

Definition regex_behaviour (re : RegExp) (group : Z) : Behaviour :=
  let expected := re_text re in
  fun _ _ input i _ =>
    match anchored_exec re (Str.sliceFrom input i) with
    | Some (fullMatch, groups) =>
        Ret (makeSuccess (i + Str.len fullMatch)
                         (matchGroup fullMatch groups group))
    | None => Ret (makeFailure i expected)
    end.

Definition succeed_behaviour (value : Value) : Behaviour :=
  fun _ _ input i _ => Ret (makeSuccess i value).

Definition fail_behaviour (expected : string) : Behaviour :=
  fun _ _ input i _ => Ret (makeFailure i expected).

Definition any_behaviour : Behaviour :=
  fun _ _ input i _ =>
    if i >=? Str.len input then Ret (makeFailure i "any character")
    else Ret (makeSuccess (i + 1) (VStr (Str.charAt input i))).

Definition all_behaviour : Behaviour :=
  fun _ _ input i _ =>
    Ret (makeSuccess (Str.len input) (VStr (Str.sliceFrom input i))).

Definition eof_behaviour : Behaviour :=
  fun _ _ input i _ =>
    if i <? Str.len input then Ret (makeFailure i "EOF")
    else Ret (makeSuccess i VNull).

(** [predicateText] is the source text of the predicate, which the
    failure message prints. *)
Definition test_behaviour (predicate : string -> Env -> bool)
  (predicateText : string) : Behaviour :=
  fun _ _ input i env =>
    let char := Str.charAt input i in
    if (i <? Str.len input) && predicate char env
    then Ret (makeSuccess (i + 1) (VStr char))
    else Ret (makeFailure i ("a character matching " ++ predicateText)).

Definition index_behaviour : Behaviour :=
  fun _ _ input i _ => Ret (makeSuccess i (VNum i)).

Definition newline : ascii := ascii_of_nat 10.

(** Returns the pair [(line, column)], both 1-based. *)
Definition lineAndColumnOfOffset (input : string) (i : Z) : Z * Z :=
  let lines := Str.splitOn newline (Str.slice input 0 i) in
  let line := Z.of_nat (length lines) in
  let column := Str.len (List.last lines "") + 1 in
  (line, column).

Definition lcIndex_behaviour : Behaviour :=
  fun _ _ input i _ =>
    let '(line, column) := lineAndColumnOfOffset input i in
    Ret (makeSuccess i (VObj [("offset", VNum i);
                              ("line", VNum line);
                              ("column", VNum column)])).

(** ** Behaviours of the combinators *)

Definition except_behaviour (allowed forbidden : loc) : Behaviour :=
  fun _ call input i env =>
    forbiddenResult ← call forbidden input i env;
    if status forbiddenResult then
      Ret (makeFailure i ("something that is not '"
                          ++ toString (value forbiddenResult) ++ "'"))
    else
      allowedResult ← call allowed input i env;
      if status allowedResult then Ret allowedResult
      else
        Ret (makeFailure i
               (toString (formatExpected (descriptions allowedResult))
                ++ " (except "
                ++ toString (formatExpected (descriptions forbiddenResult))
                ++ ")")).

Definition subEnv_behaviour (baseParser : loc) (deriveEnv : Env -> Env)
  : Behaviour :=
  fun _ call input i env =>
    let newEnv := deriveEnv env in
    call baseParser input i newEnv.

(** [lookup] returns a value; one that is not a parser is a reference
    outside the store, on which the assertion, here the call, throws. *)
Definition from_behaviour (lookup : Env -> loc) : Behaviour :=
  fun _ call input i env =>
    let foundParser := lookup env in
    call foundParser input i env.

(** [chainEnv] is [None] when the optional argument is [undefined]. *)
Definition applyChainEnv (chainEnv : option (Value -> Env -> Env))
  (v : Value) (env : Env) : Env :=
  match chainEnv with
  | Some f => f v env
  | None => env
  end.

(** The [for] loop of [seq] and the [return] after it; [parsers] is what
    is left of the array, [accum] the values stored so far. *)
Fixpoint seq_loop (chainEnv : option (Value -> Env -> Env)) (call : Call)
  (input : string) (parsers : list loc) (i : Z) (env : Env)
  (result : option Result) (accum : list Value) : Outcome Result :=
  match parsers with
  | [] => Ret (mergeOver (makeSuccess i (VArr accum)) result)
  | p :: rest =>
      nextResult ← call p input i env;
      let result := mergeOver nextResult result in
      if negb (status result) then Ret result
      else
        let env := applyChainEnv chainEnv (value result) env in
        seq_loop chainEnv call input rest (index result) env
                 (Some result) (accum ++ [value result])
  end.

Definition seq_behaviour (parsers : list loc)
  (chainEnv : option (Value -> Env -> Env)) : Behaviour :=
  fun _ call input i env =>
    seq_loop chainEnv call input parsers i env None [].

(** The [for] loop of [alt] and the [return result] after it.  The
    constructor refuses the empty array, so [result] is defined when the
    loop ends; the last case stands for returning [undefined]. *)
Fixpoint alt_loop (call : Call) (input : string) (parsers : list loc)
  (i : Z) (env : Env) (result : option Result) : Outcome Result :=
  match parsers with
  | [] =>
      match result with
      | Some r => Ret r
      | None => Throw (TypeError "undefined result")
      end
  | p :: rest =>
      r ← call p input i env;
      let result := mergeOver r result in
      if status result then Ret result
      else alt_loop call input rest i env (Some result)
  end.

Definition alt_behaviour (parsers : list loc) : Behaviour :=
  fun _ call input i env => alt_loop call input parsers i env None.

(** A JavaScript number used as a repetition bound: an integer or
    [Infinity]. *)
Inductive Num : Type :=
| Finite (n : Z)
| Infinity.

(** [times < bound] for the integer counter [times]. *)
Definition lt_num (times : Z) (bound : Num) : bool :=
  match bound with
  | Finite n => times <? n
  | Infinity => true
  end.

(** The local variables of the behaviour of [times]. *)
Record TimesState : Type := mkTimesState {
  ts_times : Z;
  ts_index : Z;
  ts_env : Env;
  ts_successes : list Value;
  ts_previousResult : option Result
}.

(** The body both loops run after a success, followed by [++times]. *)
Definition times_step (chainEnv : option (Value -> Env -> Env))
  (s : TimesState) (result mergedResult : Result) : TimesState :=
  {| ts_times := ts_times s + 1;
     ts_index := index result;
     ts_env := applyChainEnv chainEnv (value result) (ts_env s);
     ts_successes := ts_successes s ++ [value result];
     ts_previousResult := Some mergedResult |}.

(** First loop: successes are required until [min].  [inl r] is the
    [return mergedResult] of the loop, [inr s] its normal end. *)
Fixpoint times_required (fuel : nat) (call : Call) (parser : loc)
  (chainEnv : option (Value -> Env -> Env)) (input : string) (min : Num)
  (s : TimesState) : Outcome (Result + TimesState) :=
  if lt_num (ts_times s) min then
    match fuel with
    | O => Diverge
    | S fuel' =>
        result ← call parser input (ts_index s) (ts_env s);
        let mergedResult := mergeOver result (ts_previousResult s) in
        if status result then
          times_required fuel' call parser chainEnv input min
                         (times_step chainEnv s result mergedResult)
        else Ret (inl mergedResult)
    end
  else Ret (inr s).

(** Second loop: successes are allowed until [max]; a mismatch is the
    [break]. *)
Fixpoint times_allowed (fuel : nat) (call : Call) (parser : loc)
  (chainEnv : option (Value -> Env -> Env)) (input : string) (max : Num)
  (s : TimesState) : Outcome TimesState :=
  if lt_num (ts_times s) max then
    match fuel with
    | O => Diverge
    | S fuel' =>
        result ← call parser input (ts_index s) (ts_env s);
        let mergedResult := mergeOver result (ts_previousResult s) in
        if status result then
          times_allowed fuel' call parser chainEnv input max
                        (times_step chainEnv s result mergedResult)
        else Ret s
    end
  else Ret s.

Definition times_init (i : Z) (env : Env) : TimesState :=
  {| ts_times := 0; ts_index := i; ts_env := env;
     ts_successes := []; ts_previousResult := None |}.

Definition times_behaviour (parser : loc) (min max : Num)
  (chainEnv : option (Value -> Env -> Env)) : Behaviour :=
  fun fuel call input i env =>
    r ← times_required fuel call parser chainEnv input min
                       (times_init i env);
    match r with
    | inl mergedResult => Ret mergedResult
    | inr s =>
        s' ← times_allowed fuel call parser chainEnv input max s;
        Ret (makeSuccess (ts_index s') (VArr (ts_successes s')))
    end.

Definition map_behaviour (parser : loc) (fn : Value -> Env -> Value)
  : Behaviour :=
  fun _ call input i env =>
    result ← call parser input i env;
    if negb (status result) then Ret result
    else Ret (makeSuccess (index result) (fn (value result) env)).

(** [desc] runs [parser.behaviour] itself rather than [parser._]; without
    a tracer the two are the same call. *)
Definition desc_behaviour (parser : loc) (expected : string) : Behaviour :=
  fun _ call input i env =>
    result ← call parser input i env;
    if negb (status result) then Ret (Failure (index result) [VStr expected])
    else Ret result.

Definition chain_behaviour (parser : loc) (lookup : Value -> Env -> loc)
  : Behaviour :=
  fun _ call input i env =>
    result ← call parser input i env;
    if negb (status result) then Ret result
    else
      let nextParser := lookup (value result) env in
      call nextParser input (index result) env.

(** [debug] hands the tracer to the wrapped parser; the outcome is the
    wrapped parser's. *)
Definition debug_behaviour (parser : loc) : Behaviour :=
  fun _ call input i env => call parser input i env.

(** [([x]) => x], the function [skip] maps over the array of a
    sequence. *)
Definition firstOnly (v : Value) (env : Env) : Value :=
  match v with
  | VArr (x :: _) => x
  | _ => VUndefined
  end.

(** [(results) => mapper(...results)] *)
Definition spread (mapper : list Value -> Value) (results : Value) (env : Env)
  : Value :=
  match results with
  | VArr xs => mapper xs
  | _ => mapper []
  end.

(** [(start, value, end) => ({ start, value, end })] *)
Definition markEnvelope (args : list Value) : Value :=
  VObj [("start", nth 0 args VUndefined);
        ("value", nth 1 args VUndefined);
        ("end", nth 2 args VUndefined)].

(** ** The library: constructors of parser objects

    A constructor checks its arguments, then allocates the parser in the
    store it is given and returns the parser with the new store. *)
Module Partser.

(** The parsers the module creates when it is loaded, in the order of
    the source file. *)
Definition loaded : list (string * Behaviour) :=
  [("any", any_behaviour); ("all", all_behaviour); ("eof", eof_behaviour);
   ("index", index_behaviour); ("lcIndex", lcIndex_behaviour)].

(** The store once the module is loaded. *)
Definition initial : Store :=
  fold_left (fun st nb => snd (Parser (fst nb) (snd nb) st)) loaded ∅.

Definition any : loc := 1%positive.
Definition all : loc := 2%positive.
Definition eof : loc := 3%positive.

Definition except (allowed forbidden : loc) (st : Store)
  : Outcome (loc * Store) :=
  _ ← assertParser "except" allowed st;
  _ ← assertParser "except" forbidden st;
  Ret (Parser "except" (except_behaviour allowed forbidden) st).

Definition subEnv (baseParser : loc) (deriveEnv : Env -> Env) (st : Store)
  : Outcome (loc * Store) :=
  _ ← assertParser "subEnv" baseParser st;
  Ret (Parser "subEnv" (subEnv_behaviour baseParser deriveEnv) st).

Definition from (lookup : Env -> loc) (st : Store) : Outcome (loc * Store) :=
  Ret (Parser "from" (from_behaviour lookup) st).

Definition seq (parsers : list loc)
  (chainEnv : option (Value -> Env -> Env)) (st : Store)
  : Outcome (loc * Store) :=
  _ ← assertParsers "seq" parsers st;
  Ret (Parser ("seq(*" ++ Str.ofZ (Z.of_nat (length parsers)) ++ ")")
              (seq_behaviour parsers chainEnv) st).

Definition custom (parsingFunction : Behaviour) (st : Store)
  : Outcome (loc * Store) :=
  Ret (Parser "custom" parsingFunction st).

Definition alt (parsers : list loc) (st : Store) : Outcome (loc * Store) :=
  if Z.of_nat (length parsers) =? 0
  then Throw (TypeError "Partser.alt: Zero alternates")
  else
    _ ← assertParsers "alt" parsers st;
    Ret (Parser ("alt(*" ++ Str.ofZ (Z.of_nat (length parsers)) ++ ")")
                (alt_behaviour parsers) st).

Definition numText (n : Num) : string :=
  match n with
  | Finite z => Str.ofZ z
  | Infinity => "Infinity"
  end.

(** [max] is [None] when the optional argument is [undefined]. *)
Definition times (parser : loc) (min : Num) (max : option Num)
  (chainEnv : option (Value -> Env -> Env)) (st : Store)
  : Outcome (loc * Store) :=
  let max := match max with Some m => m | None => min end in
  _ ← assertParser "times" parser st;
  Ret (Parser ("times(" ++ numText min ++ "," ++ numText max ++ ")")
              (times_behaviour parser min max chainEnv) st).

Definition map (parser : loc) (fn : Value -> Env -> Value) (st : Store)
  : Outcome (loc * Store) :=
  _ ← assertParser "map" parser st;
  Ret (Parser "map" (map_behaviour parser fn) st).

Definition seqMap (args : list loc) (mapper : list Value -> Value)
  (st : Store) : Outcome (loc * Store) :=
  '(sequence, st1) ← seq args None st;
  map sequence (spread mapper) st1.

(** The function name of a parser object, which [desc] prints. *)
Definition functionName : string := "parser".

Definition desc (parser : loc) (expected : string) (st : Store)
  : Outcome (loc * Store) :=
  _ ← assertParser "desc" parser st;
  Ret (Parser ("desc(" ++ stringify expected ++ ", " ++ functionName ++ ")")
              (desc_behaviour parser expected) st).

Definition regex (re : RegExp) (group : Z) (st : Store)
  : Outcome (loc * Store) :=
  Ret (Parser ("regex(" ++ re_text re ++ ", " ++ Str.ofZ group ++ ")")
              (regex_behaviour re group) st).

Definition succeed (value : Value) (st : Store) : Outcome (loc * Store) :=
  Ret (Parser "succeed" (succeed_behaviour value) st).

Definition fail (expected : string) (st : Store) : Outcome (loc * Store) :=
  Ret (Parser "fail" (fail_behaviour expected) st).

Definition test (predicate : string -> Env -> bool)
  (predicateText : string) (st : Store) : Outcome (loc * Store) :=
  Ret (Parser "test" (test_behaviour predicate predicateText) st).

Definition clone (parser : loc) (st : Store) : Outcome (loc * Store) :=
  _ ← assertParser "clone" parser st;
  match st !! parser with
  | None => Throw (TypeError "Not a parser")
  | Some o =>
      '(newParser, st1) ← custom (behaviour o) st;
      Ret (newParser,
           alter (fun n => mkParserObj (displayName o) (behaviour n))
                 newParser st1)
  end.

(** [replace] returns [undefined]; its effect is the new store. *)
Definition replace (original replacement : loc) (st : Store)
  : Outcome Store :=
  _ ← assertParser "replace" original st;
  _ ← assertParser "replace" replacement st;
  match st !! replacement with
  | None => Throw (TypeError "Not a parser")
  | Some r =>
      Ret (alter (fun o => mkParserObj (displayName o) (behaviour r))
                 original st)
  end.

Definition chain (parser : loc) (lookup : Value -> Env -> loc) (st : Store)
  : Outcome (loc * Store) :=
  _ ← assertParser "chain" parser st;
  Ret (Parser "chain" (chain_behaviour parser lookup) st).

Definition debug (parser : loc) (st : Store) : Outcome (loc * Store) :=
  Ret (Parser "debug" (debug_behaviour parser) st).

(** [skip(...parsers)] *)
Definition skip (parsers : list loc) (st : Store) : Outcome (loc * Store) :=
  '(sequence, st1) ← seq parsers None st;
  map sequence firstOnly st1.

(** The user-facing call [parser(input, env, index)]: the parser, then
    [eof].  The two objects [skip] builds are allocated for the call. *)
Definition parse (fuel : nat) (st : Store) (parser : loc)
  (input : string) (env : Env) (index : Z) : Outcome Result :=
  '(complete, st') ← skip [parser; eof] st;
  partialMatch fuel st' complete input index env.

Definition index : loc := 4%positive.
Definition lcIndex : loc := 5%positive.

Definition mark (parser : loc) (st : Store) : Outcome (loc * Store) :=
  _ ← assertParser "mark" parser st;
  seqMap [index; parser; index] markEnvelope st.

Definition lcMark (parser : loc) (st : Store) : Outcome (loc * Store) :=
  _ ← assertParser "lcMark" parser st;
  seqMap [lcIndex; parser; lcIndex] markEnvelope st.

Definition string (str : String.string) (st : Store)
  : Outcome (loc * Store) :=
  Ret (Parser ("string(" ++ stringify str ++ ")")
              (string_behaviour str) st).

End Partser.

(** ** Definitions used to state the properties *)

(** The store while the user-facing call of [parser] runs: the store of
    the caller with the two objects [skip] has built. *)
Definition duringParse (st : Store) (parser : loc) : Store :=
  match Partser.skip [parser; Partser.eof] st with
  | Ret (_, st') => st'
  | _ => st
  end.

(** The library's [eof] object has not been rebound. *)
Definition eofIntact (st : Store) : Prop :=
  exists name, st !! Partser.eof = Some (mkParserObj name eof_behaviour).

(** The result [alt] holds after the attempts [rs] were merged, in order,
    over [acc]. *)
Definition mergeAll (acc : option Result) (rs : list Result)
  : option Result :=
  fold_left (fun acc r => Some (mergeOver r acc)) rs acc.


(** [k] successes of [parser] in a row, each run from the cursor and the
    environment the previous one left: the loop state after them, or
    [None] when one of these [k] calls is not a success. *)
Fixpoint times_reps (k : nat) (call : Call) (parser : loc)
  (chainEnv : option (Value -> Env -> Env)) (input : string)
  (s : TimesState) : option TimesState :=
  match k with
  | O => Some s
  | S k' =>
      match call parser input (ts_index s) (ts_env s) with
      | Ret result =>
          if status result then
            times_reps k' call parser chainEnv input
              (times_step chainEnv s result
                 (mergeOver result (ts_previousResult s)))
          else None
      | _ => None
      end
  end.

(** An outcome that, when it is a success, leaves the cursor between the
    start index [i] and the end of the input. *)
Definition forward (input : string) (i : Z) (o : Outcome Result) : Prop :=
  match o with
  | Ret (Success j _) => i <= j <= Str.len input
  | _ => True
  end.

(** [call] moves the cursor forward whenever it is started within the
    input. *)
Definition call_forward (call : Call) : Prop :=
  forall p input i env, i <= Str.len input -> forward input i (call p input i env).

(** A behaviour that moves the cursor forward when the parsers it calls
    do. *)
Definition behaviour_forward (b : Behaviour) : Prop :=
  forall fuel call, call_forward call ->
  forall input i env, i <= Str.len input ->
    forward input i (b fuel call input i env).

(** The engine of the runtime returns a match that is part of its
    subject. *)
Definition regex_substring (re : RegExp) : Prop :=
  forall subject fullMatch groups,
    anchored_exec re subject = Some (fullMatch, groups) ->
    Str.len fullMatch <= Str.len subject.

(** The behaviours the library's primitives and combinators give to the
    parsers they build, with any user-supplied functions and any
    sub-parsers; a custom behaviour is assumed to move the cursor
    forward. *)
Inductive LibraryBuilt : Behaviour -> Prop :=
| built_any : LibraryBuilt any_behaviour
| built_all : LibraryBuilt all_behaviour
| built_eof : LibraryBuilt eof_behaviour
| built_index : LibraryBuilt index_behaviour
| built_lcIndex : LibraryBuilt lcIndex_behaviour
| built_string str : LibraryBuilt (string_behaviour str)
| built_regex re group :
    regex_substring re -> LibraryBuilt (regex_behaviour re group)
| built_succeed v : LibraryBuilt (succeed_behaviour v)
| built_fail expected : LibraryBuilt (fail_behaviour expected)
| built_test predicate text : LibraryBuilt (test_behaviour predicate text)
| built_except allowed forbidden :
    LibraryBuilt (except_behaviour allowed forbidden)
| built_subEnv p deriveEnv : LibraryBuilt (subEnv_behaviour p deriveEnv)
| built_from lookup : LibraryBuilt (from_behaviour lookup)
| built_seq parsers chainEnv : LibraryBuilt (seq_behaviour parsers chainEnv)
| built_alt parsers : LibraryBuilt (alt_behaviour parsers)
| built_times p min max chainEnv :
    LibraryBuilt (times_behaviour p min max chainEnv)
| built_map p fn : LibraryBuilt (map_behaviour p fn)
| built_desc p expected : LibraryBuilt (desc_behaviour p expected)
| built_chain p lookup : LibraryBuilt (chain_behaviour p lookup)
| built_debug p : LibraryBuilt (debug_behaviour p)
| built_custom b : behaviour_forward b -> LibraryBuilt b.

(** Every parser object of the store was built by the library. *)
Definition store_built (st : Store) : Prop :=
  forall l o, st !! l = Some o -> LibraryBuilt (behaviour o).

(** The parsers of a sequence run one after the other, each from the
    cursor and the environment the one before left: the cursor, the
    environment and the values after them, or [None] when one of them is
    not a success. *)
Fixpoint seq_steps (chainEnv : option (Value -> Env -> Env)) (call : Call)
  (input : string) (parsers : list loc) (i : Z) (env : Env)
  (accum : list Value) : option (Z * Env * list Value) :=
  match parsers with
  | [] => Some (i, env, accum)
  | p :: rest =>
      match call p input i env with
      | Ret (Success j v) =>
          seq_steps chainEnv call input rest j (applyChainEnv chainEnv v env)
                    (accum ++ [v])
      | _ => None
      end
  end.

(** The library's [index] and [lcIndex] objects have not been rebound. *)
Definition indexIntact (st : Store) : Prop :=
  exists name, st !! Partser.index = Some (mkParserObj name index_behaviour).

Definition lcIndexIntact (st : Store) : Prop :=
  exists name,
    st !! Partser.lcIndex = Some (mkParserObj name lcIndex_behaviour).

(** The object [lcIndex] returns at the cursor [i]. *)
Definition lcPosition (input : string) (i : Z) : Value :=
  let '(line, column) := lineAndColumnOfOffset input i in
  VObj [("offset", VNum i); ("line", VNum line); ("column", VNum column)].

(** The number of occurrences of a character in a string. *)
Fixpoint countChar (c : ascii) (s : string) : nat :=
  match s with
  | EmptyString => 0%nat
  | String a rest =>
      if Ascii.eqb a c then S (countChar c rest) else countChar c rest
  end.

(** The one-character strings of [input] from the cursor [i] on, [k] of
    them, as values. *)
Definition charsFrom (input : string) (i : Z) (k : nat) : list Value :=
  List.map (fun n => VStr (Str.charAt input (i + Z.of_nat n))) (seq 0 k).

(** * Slices with context

    Source: [src/node_modules/slice-with-context/index.js], the helper
    the tracer of the parser library calls to show the input around a
    cursor. *)
Module SliceWithContext.

Record Position : Type := mkPosition {
  offset : Z;
  length : Z
}.

Record Slice : Type := mkSlice {
  fit : bool;
  withContext : string;
  visibleSlice : string;
  fullSlice : string;
  position : Position
}.

(** The function returns its result object or throws a [RangeError]. *)
Inductive Returns : Type :=
| Returned (result : Slice)
| RangeError (msg : string).

(** The two biases are floating-point numbers that the function clamps to
    the interval from 0 to 1 and then only uses to scale a number of
    characters: [Math.floor(n * windowLeftBias)] and
    [Math.floor(n * (1 - overflowLeftBias))].  The arithmetic of the
    runtime is not modelled; the function takes these two scalings in the
    place of the biases. *)
Definition Scaling : Type := Z -> Z.

(** What clamping a bias to the interval from 0 to 1 gives its scaling:
    a part of the number that is scaled. *)
Definition proper (scale : Scaling) : Prop :=
  forall n, 0 <= n -> 0 <= scale n <= n.

(** The scaling of the bias [num / den], exact for the biases the parser
    library passes (0.75 and 1) on lengths of strings. *)
Definition ratio (num den : Z) : Scaling := fun n => (n * num) / den.

Definition sliceWithContext (inputText : string)
  (windowSize offset length : Z) (windowLeftScale overflowRightScale : Scaling)
  : Returns :=
  if offset <? 0 then
    RangeError "offset <0; implies window begins before beginning of string!"
  else if offset + length >? Str.len inputText then
    RangeError "offset + length > inputString.length; implies window continues beyond end of string"
  else
    let fullSlice := Str.slice inputText offset (offset + length) in
    let fitsInWindow := length <=? windowSize in
    if fitsInWindow then
      let contextSpace := windowSize - length in
      let leftContextLength :=
        Z.min (windowLeftScale contextSpace) offset in
      let rightContextLength :=
        Z.min (contextSpace - leftContextLength)
              (Str.len inputText - offset - length) in
      let leftContextLength := contextSpace - rightContextLength in
      let windowOffset := offset - leftContextLength in
      let windowLength := length + leftContextLength + rightContextLength in
      let windowPart :=
        Str.slice inputText windowOffset (windowOffset + windowLength) in
      Returned
        {| fit := true;
           withContext := windowPart;
           visibleSlice :=
             Str.slice windowPart leftContextLength
                       (leftContextLength + length);
           fullSlice := fullSlice;
           position := {| offset := leftContextLength; length := length |} |}
    else
      let truncationLength := windowSize in
      let truncationOffset :=
        overflowRightScale (Str.len fullSlice - windowSize) in
      let truncatedPart :=
        Str.slice fullSlice truncationOffset
                  (truncationOffset + truncationLength) in
      Returned
        {| fit := false;
           withContext := truncatedPart;
           visibleSlice := truncatedPart;
           fullSlice := fullSlice;
           position := {| offset := 0; length := windowSize |} |}.

End SliceWithContext.

(** ** Stand-ins for unprintable characters

    [replaceUnprintables] of the tracer works on the UTF-16 code units of
    a string ([split('')], [charCodeAt], [String.fromCharCode]), some of
    which lie outside the characters of [string]; here a text is the list
    of its code units. *)

(** The callback of [map]: newline, tab and space get an arrow or a
    marker (U+23CE, U+21B9, U+2423), the other control characters the
    control picture at [0x2400 + charCode]. *)
Definition replaceUnprintable (c : N) : N :=
  (if c =? 10 then 9166
   else if c =? 9 then 8633
   else if c =? 32 then 9251
   else if c <=? 31 then 9216 + c
   else c)%N.

Definition replaceUnprintables (str : list N) : list N :=
  List.map replaceUnprintable str.

(** * Properties *)

(** ** Strings *)

Lemma substring_none (n : nat) (s : string) : substring n 0 s = "".
Proof.
  revert n. induction s as [|c s IH]; intros [|n]; simpl; auto.
Qed.

Lemma substring_all (s : string) : substring 0 (String.length s) s = s.
Proof.
  induction s as [|c s IH]; simpl; [reflexivity | now rewrite IH].
Qed.

Lemma substring_length (s : string) (n m : nat) :
  String.length (substring n m s) = Nat.min m (String.length s - n).
Proof.
  revert n m.
  induction s as [|c s IH]; intros [|n] [|m]; simpl; auto;
    rewrite IH; auto using Nat.sub_0_r with arith.
Qed.

Lemma substring_clamp (s : string) (m : nat) :
  substring 0 (Nat.min m (String.length s)) s = substring 0 m s.
Proof.
  revert m. induction s as [|c s IH]; intros [|m]; simpl; auto.
  now rewrite IH.
Qed.

Lemma len_nonneg (s : string) : 0 <= Str.len s.
Proof. unfold Str.len. lia. Qed.

Lemma slice_empty (input : string) (i : Z) : Str.slice input i (i + 0) = "".
Proof.
  unfold Str.slice. rewrite Z.add_0_r, Z.sub_diag. apply substring_none.
Qed.

(** From the start of the text, [slice] is the prefix of that length. *)
Lemma slice_prefix (input : string) (n : nat) :
  Str.slice input 0 (0 + Z.of_nat n) = substring 0 n input.
Proof.
  unfold Str.slice, Str.relIndex, Str.len. simpl (0 <? 0).
  cbv iota. rewrite Z.add_0_l.
  destruct (Z.ltb_spec (Z.of_nat n) 0) as [Hneg|_]; [lia|].
  rewrite Z.min_l by lia. simpl (Z.to_nat 0). rewrite Z.sub_0_r.
  rewrite Z.max_l by lia.
  rewrite <- (substring_clamp input n). f_equal. lia.
Qed.

Lemma slice_self (s : string) : Str.slice s 0 (0 + Str.len s) = s.
Proof. unfold Str.len. rewrite slice_prefix. apply substring_all. Qed.

Lemma slice_starts (input s : string) :
  String.eqb (Str.slice input 0 (0 + Str.len s)) s = String.prefix s input.
Proof.
  unfold Str.len. rewrite slice_prefix.
  destruct (String.prefix s input) eqn:Hp.
  - apply String.eqb_eq. now apply prefix_correct.
  - apply String.eqb_neq. intros Heq.
    apply prefix_correct in Heq. congruence.
Qed.

(** ** The store *)

Lemma Parser_fresh (name : string) (b : Behaviour) (st : Store) :
  st !! (Parser name b st).1 = None.
Proof.
  unfold Parser; simpl. apply not_elem_of_dom, is_fresh.
Qed.

Lemma Parser_lookup_new (name : string) (b : Behaviour) (st : Store) :
  (Parser name b st).2 !! (Parser name b st).1 = Some (mkParserObj name b).
Proof. unfold Parser; simpl. apply lookup_insert_eq. Qed.

Lemma Parser_lookup_old (name : string) (b : Behaviour) (st : Store)
  (l : loc) (o : ParserObj) :
  st !! l = Some o -> (Parser name b st).2 !! l = Some o.
Proof.
  intros Hl. unfold Parser; simpl.
  rewrite lookup_insert_ne; [assumption|].
  intros <-. pose proof (Parser_fresh name b st) as Hf.
  unfold Parser in Hf; simpl in Hf. congruence.
Qed.


Lemma isParser_true (p : loc) (st : Store) (o : ParserObj) :
  st !! p = Some o -> isParser p st = true.
Proof.
  intros Hp. unfold isParser. apply bool_decide_eq_true. eauto.
Qed.


Lemma assertParser_ok (fn : string) (p : loc) (st : Store) (o : ParserObj) :
  st !! p = Some o -> assertParser fn p st = Ret tt.
Proof.
  intros Hp. unfold assertParser. now rewrite (isParser_true p st o).
Qed.

Lemma partialMatch_step (fuel : nat) (st : Store) (p : loc) (o : ParserObj)
  (input : string) (i : Z) (env : Env) :
  st !! p = Some o ->
  partialMatch (S fuel) st p input i env
  = behaviour o fuel (partialMatch fuel st) input i env.
Proof. intros Hp. simpl. now rewrite Hp. Qed.

Arguments partialMatch : simpl never.
Arguments Parser : simpl never.

(** The objects the module creates on loading. *)
Lemma initial_any :
  Partser.initial !! Partser.any = Some (mkParserObj "any" any_behaviour).
Proof. reflexivity. Qed.

Lemma initial_all :
  Partser.initial !! Partser.all = Some (mkParserObj "all" all_behaviour).
Proof. reflexivity. Qed.

Lemma initial_eof :
  Partser.initial !! Partser.eof = Some (mkParserObj "eof" eof_behaviour).
Proof. reflexivity. Qed.

Lemma initial_index :
  Partser.initial !! Partser.index
  = Some (mkParserObj "index" index_behaviour).
Proof. reflexivity. Qed.

Lemma initial_lcIndex :
  Partser.initial !! Partser.lcIndex
  = Some (mkParserObj "lcIndex" lcIndex_behaviour).
Proof. reflexivity. Qed.

(** ** [mergeOver] *)

Lemma mergeOver_success (i : Z) (v : Value) (previous : option Result) :
  mergeOver (Success i v) previous = Success i v.
Proof. now destruct previous. Qed.

Lemma mergeOver_status (next : Result) (previous : option Result) :
  status (mergeOver next previous) = status next.
Proof.
  destruct previous as [prev|]; simpl; [|reflexivity].
  destruct next as [i v|i e]; simpl; [reflexivity|].
  now destruct (_ >? _).
Qed.

Lemma mergeOver_index (next : Result) (previous : option Result) :
  index (mergeOver next previous) = index next.
Proof.
  destruct previous as [prev|]; simpl; [|reflexivity].
  destruct next as [i v|i e]; simpl; [reflexivity|].
  now destruct (_ >? _).
Qed.

(** A failure strictly further than the one kept so far replaces it. *)
Lemma mergeOver_further (i j : Z) (e f : list Value) :
  j < i -> mergeOver (Failure i e) (Some (Failure j f)) = Failure i e.
Proof.
  intros Hlt. simpl. unfold MergeOver.furthest; simpl.
  destruct (Z.gtb_spec i j); [reflexivity | lia].
Qed.


(** ** The user-facing call *)

Lemma bind_Ret {A B : Type} (a : A) (k : A -> Outcome B) :
  (Ret a ≫= k) = k a.
Proof. reflexivity. Qed.

Lemma seq_two_ok (st : Store) (p q : loc) (o oq : ParserObj) :
  st !! p = Some o ->
  st !! q = Some oq ->
  Partser.seq [p; q] None st
  = Ret (Parser "seq(*2)" (seq_behaviour [p; q] None) st).
Proof.
  intros Hp Hq. unfold Partser.seq, assertParsers.
  rewrite (assertParser_ok _ p st o Hp), bind_Ret.
  rewrite (assertParser_ok _ q st oq Hq), !bind_Ret.
  reflexivity.
Qed.

Lemma map_ok (st : Store) (p : loc) (o : ParserObj)
  (fn : Value -> Env -> Value) :
  st !! p = Some o ->
  Partser.map p fn st = Ret (Parser "map" (map_behaviour p fn) st).
Proof.
  intros Hp. unfold Partser.map.
  now rewrite (assertParser_ok _ p st o Hp), bind_Ret.
Qed.

Lemma skip_parser_eof (st : Store) (p : loc) (o oe : ParserObj) :
  st !! p = Some o ->
  st !! Partser.eof = Some oe ->
  exists sq m : loc,
    Partser.skip [p; Partser.eof] st = Ret (m, duringParse st p)
    /\ duringParse st p !! m
       = Some (mkParserObj "map" (map_behaviour sq firstOnly))
    /\ duringParse st p !! sq
       = Some (mkParserObj "seq(*2)"
                 (seq_behaviour [p; Partser.eof] None))
    /\ forall l x, st !! l = Some x -> duringParse st p !! l = Some x.
Proof.
  intros Hp He.
  pose (sq := Parser "seq(*2)" (seq_behaviour [p; Partser.eof] None) st).
  pose (m := Parser "map" (map_behaviour sq.1 firstOnly) sq.2).
  assert (Hskip : Partser.skip [p; Partser.eof] st = Ret (m.1, m.2)).
  { unfold Partser.skip.
    rewrite (seq_two_ok st p Partser.eof o oe Hp He), bind_Ret.
    fold sq. rewrite (surjective_pairing sq).
    rewrite (map_ok sq.2 sq.1 _ firstOnly (Parser_lookup_new _ _ st)).
    fold m. now rewrite (surjective_pairing m). }
  exists sq.1, m.1. unfold duringParse. rewrite Hskip.
  repeat split.
  - apply Parser_lookup_new.
  - apply Parser_lookup_old, Parser_lookup_new.
  - intros l x Hl. now apply Parser_lookup_old, Parser_lookup_old.
Qed.

(** What the user-facing call computes from the parser's own outcome. *)
Lemma parse_unfold (st : Store) (p : loc) (o : ParserObj) (f : nat)
  (input : string) (env : Env) (i : Z) :
  st !! p = Some o ->
  eofIntact st ->
  Partser.parse (S (S (S f))) st p input env i
  = match partialMatch (S f) (duringParse st p) p input i env with
    | Ret (Success j v) =>
        if j <? Str.len input
        then Ret (mergeOver (makeFailure j "EOF") (Some (Success j v)))
        else Ret (Success j v)
    | other => other
    end.
Proof.
  intros Hp [name He].
  destruct (skip_parser_eof st p o _ Hp He)
    as (sq & m & Hskip & Hm & Hsq & Hold).
  unfold Partser.parse. rewrite Hskip, bind_Ret.
  rewrite (partialMatch_step _ _ m _ _ _ _ Hm); cbn [behaviour].
  unfold map_behaviour.
  rewrite (partialMatch_step _ _ sq _ _ _ _ Hsq); cbn [behaviour].
  unfold seq_behaviour; cbn [seq_loop].
  destruct (partialMatch (S f) (duringParse st p) p input i env)
    as [[j v|j e]| |] eqn:Hrun; try reflexivity.
  rewrite bind_Ret, mergeOver_success.
  cbn [status negb applyChainEnv index value].
  rewrite (partialMatch_step _ _ Partser.eof _ _ _ _ (Hold _ _ He)).
  cbn [behaviour]. unfold eof_behaviour.
  destruct (j <? Str.len input) eqn:Hj; rewrite bind_Ret.
  - assert (Hs : status (mergeOver (makeFailure j "EOF")
                           (Some (Success j v))) = false)
      by now rewrite mergeOver_status.
    rewrite Hs. cbn [negb]. now rewrite bind_Ret, Hs.
  - now rewrite mergeOver_success.
Qed.

Lemma string_ok (st : Store) (s : string) :
  Partser.string s st
  = Ret (Parser ("string(" ++ stringify s ++ ")") (string_behaviour s) st).
Proof. reflexivity. Qed.

Lemma eofIntact_Parser (st : Store) (name : string) (b : Behaviour) :
  eofIntact st -> eofIntact (Parser name b st).2.
Proof.
  intros [n He]. exists n. now apply Parser_lookup_old.
Qed.

Lemma eofIntact_initial : eofIntact Partser.initial.
Proof. exists "eof". reflexivity. Qed.

(** The behaviour of [string(s)] at the start of a text. *)
Lemma string_behaviour_start (s input : string) (fuel : nat) (call : Call)
  (env : Env) :
  string_behaviour s fuel call input 0 env
  = if String.prefix s input
    then Ret (Success (Str.len s) (VStr s))
    else Ret (Failure 0 [VStr ("'" ++ s ++ "'")]).
Proof.
  unfold string_behaviour.
  pose proof (slice_starts input s) as Hs.
  destruct (String.prefix s input).
  - rewrite Hs. apply String.eqb_eq in Hs. now rewrite Hs.
  - now rewrite Hs.
Qed.

Lemma prefix_refl (s : string) : String.prefix s s = true.
Proof. apply prefix_correct, substring_all. Qed.

(** ** Claims *)

(** C1.  [mergeOver] at a concrete pair of failures where [previous] is
    strictly further than [next]: the merged failure carries the
    concatenated descriptions, but under [next]'s index 0, not under
    [previous]'s index 1.  (With equal indices the two coincide, see
    [mergeOver_not_further].) *)
Theorem mergeOver_keeps_next_index :
  mergeOver (Failure 0 [VStr "'c'"]) (Some (Failure 1 [VStr "'b'"]))
  = Failure 0 [VStr "'c'"; VStr "'b'"]
  /\ index (mergeOver (Failure 0 [VStr "'c'"]) (Some (Failure 1 [VStr "'b'"])))
     <> index (Failure 1 [VStr "'b'"]).
Proof. split; [reflexivity | discriminate]. Qed.

(** C3.  [formatError] on a 16-character input and a failure at index 3:
    13 characters remain, the snippet shows 10 of them, and no ellipsis
    is appended, because the test compares the number of remaining
    characters with [i + 10] rather than with 10.  At index 0 the same
    input gets its ellipsis. *)
Theorem formatError_ellipsis_missing :
  formatError "0123456789abcdef" (Failure 3 [VStr "'x'"])
  = "expected 'x' at character 3, got '3456789abc'"
  /\ Str.len "0123456789abcdef" - 3 > amountOfContext
  /\ formatError "0123456789abcdef" (Failure 0 [VStr "'x'"])
     = "expected 'x' at character 0, got '0123456789...'".
Proof. repeat split. Qed.

(** C10.  The parser [string("")] succeeds at every start index of every
    text, with the value [""] and without moving the cursor: both its
    behaviour and the parser object the constructor returns.  No text
    fails to start with [""], so the failure case of the contract of
    [string(s)] is empty at [s = ""].  The statement does not need the
    index to lie within the text. *)
Theorem string_empty_never_fails :
  (forall (fuel : nat) (call : Call) (input : string) (i : Z) (env : Env),
      string_behaviour "" fuel call input i env = Ret (Success i (VStr "")))
  /\ (forall (st : Store) (fuel : nat) (input : string) (i : Z) (env : Env),
         match Partser.string "" st with
         | Ret (p, st') =>
             partialMatch (S fuel) st' p input i env
             = Ret (Success i (VStr ""))
         | _ => False
         end)
  /\ (forall text : string, String.prefix "" text = true).
Proof.
  assert (Hb : forall fuel call input i env,
             string_behaviour "" fuel call input i env
             = Ret (Success i (VStr ""))).
  { intros. unfold string_behaviour. change (Str.len "") with 0.
    rewrite slice_empty. cbn. now rewrite Z.add_0_r. }
  split; [exact Hb | split].
  - intros st fuel input i env. rewrite string_ok.
    destruct (Parser _ (string_behaviour "") st) as [p st'] eqn:HP.
    assert (Hp : st' !! p = Some (mkParserObj ("string(" ++ stringify "" ++ ")")
                                    (string_behaviour ""))).
    { pose proof (Parser_lookup_new ("string(" ++ stringify "" ++ ")")
                    (string_behaviour "") st) as H.
      now rewrite HP in H. }
    rewrite (partialMatch_step _ _ _ _ _ _ _ Hp). apply Hb.
  - intros [|c text]; reflexivity.
Qed.

(** C5.  For every string [s], the parser [string(s)] called as a
    complete parse on [s] itself returns [Success] with index [len(s)]
    and value [s]; called on a text that does not start with [s] it
    returns a [Failure] at the start index 0 whose expected list is the
    quoted literal alone. *)
Theorem string_complete_parse (st st' : Store) (s : string) (p : loc)
  (env : Env) (f : nat) :
  eofIntact st ->
  Partser.string s st = Ret (p, st') ->
  Partser.parse (S (S (S f))) st' p s env 0
  = Ret (Success (Str.len s) (VStr s))
  /\ forall text : string,
      String.prefix s text = false ->
      Partser.parse (S (S (S f))) st' p text env 0
      = Ret (Failure 0 [VStr ("'" ++ s ++ "'")]).
Proof.
  intros Heof Hmk. rewrite string_ok in Hmk.
  assert (Hmk' : Parser ("string(" ++ stringify s ++ ")")
                   (string_behaviour s) st = (p, st')) by congruence.
  clear Hmk. rename Hmk' into Hmk.
  pose proof (Parser_lookup_new ("string(" ++ stringify s ++ ")")
                (string_behaviour s) st) as Hp.
  pose proof (eofIntact_Parser st ("string(" ++ stringify s ++ ")")
                (string_behaviour s) Heof) as Heof'.
  rewrite Hmk in Hp, Heof'. cbn [fst snd] in Hp, Heof'.
  assert (Hrun : forall text,
             partialMatch (S f) (duringParse st' p) p text 0 env
             = if String.prefix s text
               then Ret (Success (Str.len s) (VStr s))
               else Ret (Failure 0 [VStr ("'" ++ s ++ "'")])).
  { intros text.
    destruct Heof' as [n He].
    destruct (skip_parser_eof st' p _ _ Hp He) as (sq & m & _ & _ & _ & Hold).
    rewrite (partialMatch_step _ _ _ _ _ _ _ (Hold _ _ Hp)).
    apply string_behaviour_start. }
  split.
  - rewrite (parse_unfold st' p _ f s env 0 Hp Heof'), Hrun, prefix_refl.
    now rewrite Z.ltb_irrefl.
  - intros text Hno.
    now rewrite (parse_unfold st' p _ f text env 0 Hp Heof'), Hrun, Hno.
Qed.

Lemma string_complete_parse_witness :
  match Partser.string "Hello!" Partser.initial with
  | Ret (p, st') =>
      Partser.parse 3 st' p "Hello!" VUndefined 0
      = Ret (Success 6 (VStr "Hello!"))
  | _ => False
  end.
Proof.
  destruct (Partser.string "Hello!" Partser.initial)
    as [[p st']| |] eqn:Hmk; try discriminate Hmk.
  exact (proj1 (string_complete_parse Partser.initial st' "Hello!" p
                  VUndefined 0 eofIntact_initial Hmk)).
Defined.

(** C2.  For every parser object [p], text, environment and start index,
    the complete parse relates to [p]'s raw behaviour, run in the store
    of the call, as follows: it succeeds with index [j] and value [v]
    exactly when the raw behaviour succeeds with [j] and [v] and [j] is
    at the end of the input, that is, [eof] succeeds there (its test is
    that [j] is not below the length); it fails when the raw behaviour
    fails, with that failure, and when the raw behaviour succeeds before
    the end of the input.  In particular [string("a")] on ["ab"] succeeds
    at index 1 as a partial match and fails as a complete parse. *)
Theorem complete_parse_requires_eof :
  (forall (st : Store) (p : loc) (o : ParserObj) (f : nat) (input : string)
          (env : Env) (i : Z),
      st !! p = Some o ->
      eofIntact st ->
      let st' := duringParse st p in
      let raw := behaviour o f (partialMatch f st') input i env in
      let complete := Partser.parse (S (S (S f))) st p input env i in
      (forall l x, st !! l = Some x -> st' !! l = Some x)
      /\ (forall j v,
             complete = Ret (Success j v)
             <-> raw = Ret (Success j v) /\ Str.len input <= j)
      /\ (forall j e, raw = Ret (Failure j e) -> complete = Ret (Failure j e))
      /\ (forall j v,
             raw = Ret (Success j v) -> j < Str.len input ->
             exists e, complete = Ret (Failure j e)))
  /\ match Partser.string "a" Partser.initial with
     | Ret (p, st) =>
         partialMatch 1 st p "ab" 0 VUndefined = Ret (Success 1 (VStr "a"))
         /\ Partser.parse 3 st p "ab" VUndefined 0
            = Ret (Failure 1 [VStr "EOF"])
     | _ => False
     end.
Proof.
  split; [|split; reflexivity].
  intros st p o f input env i Hp Heof st' raw complete.
  assert (Hc : complete
               = match raw with
                 | Ret (Success j v) =>
                     if j <? Str.len input
                     then Ret (mergeOver (makeFailure j "EOF")
                                 (Some (Success j v)))
                     else Ret (Success j v)
                 | other => other
                 end).
  { subst complete raw st'. rewrite (parse_unfold st p o f input env i Hp Heof).
    destruct Heof as [n He].
    destruct (skip_parser_eof st p o _ Hp He) as (sq & m & _ & _ & _ & Hold).
    rewrite (partialMatch_step _ _ _ _ _ _ _ (Hold _ _ Hp)).
    now destruct (behaviour o f _ input i env) as [[j v|j e]| |]. }
  split; [|split; [|split]].
  - destruct Heof as [n He].
    destruct (skip_parser_eof st p o _ Hp He) as (sq & m & _ & _ & _ & Hold).
    exact Hold.
  - intros j v. rewrite Hc. split.
    + destruct raw as [[j' v'|j' e']| |]; try discriminate.
      destruct (Z.ltb_spec j' (Str.len input)) as [Hlt|Hge].
      * intros H. exfalso.
        assert (Hs : status (mergeOver (makeFailure j' "EOF")
                               (Some (Success j' v'))) = status (Success j v))
          by congruence.
        rewrite mergeOver_status in Hs. discriminate Hs.
      * intros H. injection H as -> ->. split; [reflexivity | lia].
    + intros [-> Hge].
      destruct (Z.ltb_spec j (Str.len input)); [lia | reflexivity].
  - intros j e Hraw. now rewrite Hc, Hraw.
  - intros j v Hraw Hlt. rewrite Hc, Hraw.
    destruct (Z.ltb_spec j (Str.len input)) as [_|Hge]; [|lia].
    pose proof (mergeOver_status (makeFailure j "EOF") (Some (Success j v)))
      as Hs.
    pose proof (mergeOver_index (makeFailure j "EOF") (Some (Success j v)))
      as Hi.
    destruct (mergeOver _ _) as [j' v'|j' e']; [discriminate Hs|].
    simpl in Hi. subst j'. now exists e'.
Qed.

Lemma complete_parse_requires_eof_witness :
  Partser.parse 3 Partser.initial Partser.any "a" VUndefined 0
  = Ret (Success 1 (VStr "a"))
  <-> any_behaviour 0%nat
        (partialMatch 0 (duringParse Partser.initial Partser.any))
        "a" 0 VUndefined = Ret (Success 1 (VStr "a"))
      /\ Str.len "a" <= 1.
Proof.
  exact (proj1 (proj2 (proj1 complete_parse_requires_eof
                         Partser.initial Partser.any _ 0%nat "a" VUndefined 0
                         initial_any eofIntact_initial))
               1 (VStr "a")).
Defined.

(** C8.  For every parser [p], text, start index and environment,
    [map(p, identity)] returns what [p] returns: the same failure, or a
    success with the same index and the same value (and it throws or
    fails to return exactly when [p] does).  This holds for the
    behaviour, whatever the sub-parser call does, and for the parser
    object the constructor returns. *)
Theorem map_identity :
  (forall (p : loc) (fuel : nat) (call : Call) (input : string) (i : Z)
          (env : Env),
      map_behaviour p (fun v _ => v) fuel call input i env
      = call p input i env)
  /\ (forall (st : Store) (p : loc) (o : ParserObj) (fuel : nat)
             (input : string) (i : Z) (env : Env),
         st !! p = Some o ->
         match Partser.map p (fun v _ => v) st with
         | Ret (m, st') =>
             partialMatch (S fuel) st' m input i env
             = partialMatch fuel st' p input i env
         | _ => False
         end).
Proof.
  assert (Hb : forall p fuel call input i env,
             map_behaviour p (fun v _ => v) fuel call input i env
             = call p input i env).
  { intros. unfold map_behaviour.
    now destruct (call p input i env) as [[j v|j e]| |]. }
  split; [exact Hb|].
  intros st p o fuel input i env Hp.
  rewrite (map_ok st p o _ Hp).
  destruct (Parser "map" _ st) as [m st'] eqn:HP.
  pose proof (Parser_lookup_new "map" (map_behaviour p (fun v _ => v)) st)
    as Hm.
  rewrite HP in Hm. cbn [fst snd] in Hm.
  rewrite (partialMatch_step _ _ _ _ _ _ _ Hm). apply Hb.
Qed.

Lemma map_identity_witness :
  match Partser.map Partser.any (fun v _ => v) Partser.initial with
  | Ret (m, st') =>
      partialMatch 2 st' m "ab" 0 VUndefined
      = partialMatch 1 st' Partser.any "ab" 0 VUndefined
  | _ => False
  end.
Proof.
  exact (proj2 map_identity Partser.initial Partser.any _ 1%nat "ab" 0
               VUndefined initial_any).
Defined.

(** ** [replace] and [clone] *)

Lemma replace_ok (st : Store) (target source : loc) (ot os : ParserObj) :
  st !! target = Some ot ->
  st !! source = Some os ->
  Partser.replace target source st
  = Ret (alter (fun o => mkParserObj (displayName o) (behaviour os))
               target st).
Proof.
  intros Ht Hs. unfold Partser.replace.
  rewrite (assertParser_ok _ _ _ _ Ht), bind_Ret.
  rewrite (assertParser_ok _ _ _ _ Hs), bind_Ret.
  now rewrite Hs.
Qed.

Lemma clone_ok (st : Store) (p : loc) (o : ParserObj) :
  st !! p = Some o ->
  Partser.clone p st
  = Ret ((Parser "custom" (behaviour o) st).1,
         alter (fun n => mkParserObj (displayName o) (behaviour n))
               (Parser "custom" (behaviour o) st).1
               (Parser "custom" (behaviour o) st).2).
Proof.
  intros Hp. unfold Partser.clone, Partser.custom.
  rewrite (assertParser_ok _ _ _ _ Hp), bind_Ret, Hp, bind_Ret.
  now destruct (Parser "custom" (behaviour o) st).
Qed.

(** C7.  [replace(target, source)] writes [source]'s behaviour into the
    object [target]: the store keeps the same objects, only [target]
    changes, its display name stays, and a call through any reference to
    [target] now runs the new behaviour.  [clone(p)] allocates an object
    that was not in the store, with [p]'s behaviour and display name, and
    a later [replace] of [p] leaves that object as it is.  On the
    example: with [p = string("a")], [c = clone(p)] and then
    [replace(p, string("b"))], the complete parses [p("b")] and [c("a")]
    succeed and [c("b")] fails; a parser [map(p, identity)] built before
    the [replace] follows [p] and accepts ["b"] afterwards. *)
Theorem replace_rebinds_clone_snapshots :
  (forall (st : Store) (target source : loc) (ot os : ParserObj),
      st !! target = Some ot ->
      st !! source = Some os ->
      exists st' : Store,
        Partser.replace target source st = Ret st'
        /\ st' !! target
           = Some (mkParserObj (displayName ot) (behaviour os))
        /\ (forall l, l <> target -> st' !! l = st !! l)
        /\ dom st' = dom st
        /\ (forall fuel input i env,
               partialMatch (S fuel) st' target input i env
               = behaviour os fuel (partialMatch fuel st') input i env))
  /\ (forall (st : Store) (p : loc) (o : ParserObj),
         st !! p = Some o ->
         exists (c : loc) (st1 : Store),
           Partser.clone p st = Ret (c, st1)
           /\ st !! c = None
           /\ st1 !! c = Some (mkParserObj (displayName o) (behaviour o))
           /\ (forall l x, st !! l = Some x -> st1 !! l = Some x)
           /\ (forall (source : loc) (st2 : Store),
                  Partser.replace p source st1 = Ret st2 ->
                  st2 !! c
                  = Some (mkParserObj (displayName o) (behaviour o))))
  /\ match
       '(p, st) ← Partser.string "a" Partser.initial;
       '(c, st) ← Partser.clone p st;
       '(b, st) ← Partser.string "b" st;
       st ← Partser.replace p b st;
       Ret (p, c, st)
     with
     | Ret (p, c, st) =>
         Partser.parse 3 st p "b" VUndefined 0 = Ret (Success 1 (VStr "b"))
         /\ Partser.parse 3 st c "a" VUndefined 0
            = Ret (Success 1 (VStr "a"))
         /\ Partser.parse 3 st c "b" VUndefined 0
            = Ret (Failure 0 [VStr "'a'"])
     | _ => False
     end
  /\ match
       '(p, st) ← Partser.string "a" Partser.initial;
       '(w, st) ← Partser.map p (fun v _ => v) st;
       '(b, st) ← Partser.string "b" st;
       st' ← Partser.replace p b st;
       Ret (w, st, st')
     with
     | Ret (w, st, st') =>
         Partser.parse 4 st w "b" VUndefined 0 = Ret (Failure 0 [VStr "'a'"])
         /\ Partser.parse 4 st' w "b" VUndefined 0
            = Ret (Success 1 (VStr "b"))
     | _ => False
     end.
Proof.
  split; [|split; [|split; [vm_compute; auto | vm_compute; auto]]].
  - intros st target source ot os Ht Hs.
    eexists. split; [apply (replace_ok st target source ot os Ht Hs)|].
    assert (Hnew : alter (fun o => mkParserObj (displayName o) (behaviour os))
                     target st !! target
                   = Some (mkParserObj (displayName ot) (behaviour os)))
      by now rewrite lookup_alter_eq, Ht.
    repeat split.
    + exact Hnew.
    + intros l Hne. now apply lookup_alter_ne.
    + apply dom_alter_L.
    + intros fuel input i env.
      now rewrite (partialMatch_step _ _ _ _ _ _ _ Hnew).
  - intros st p o Hp.
    pose proof (Parser_fresh "custom" (behaviour o) st) as Hfresh.
    pose proof (Parser_lookup_new "custom" (behaviour o) st) as Hnew.
    set (c := (Parser "custom" (behaviour o) st).1) in *.
    set (st0 := (Parser "custom" (behaviour o) st).2) in *.
    assert (Hc : alter (fun n => mkParserObj (displayName o) (behaviour n))
                   c st0 !! c
                 = Some (mkParserObj (displayName o) (behaviour o)))
      by now rewrite lookup_alter_eq, Hnew.
    exists c, (alter (fun n => mkParserObj (displayName o) (behaviour n))
                 c st0).
    split; [apply (clone_ok st p o Hp)|].
    split; [exact Hfresh|]. split; [exact Hc|]. split.
    + intros l x Hl. rewrite lookup_alter_ne by congruence.
      now apply Parser_lookup_old.
    + intros source st2 Hrep. unfold Partser.replace in Hrep.
      destruct (assertParser "replace" p _); try discriminate Hrep.
      rewrite bind_Ret in Hrep.
      destruct (assertParser "replace" source _); try discriminate Hrep.
      rewrite bind_Ret in Hrep.
      destruct (_ !! source) as [os|]; try discriminate Hrep.
      injection Hrep as <-.
      rewrite lookup_alter_ne by congruence. exact Hc.
Qed.

Lemma replace_rebinds_clone_snapshots_witness :
  exists st' : Store,
    Partser.replace Partser.any Partser.all Partser.initial = Ret st'
    /\ st' !! Partser.any = Some (mkParserObj "any" all_behaviour)
    /\ (forall l, l <> Partser.any -> st' !! l = Partser.initial !! l)
    /\ dom st' = dom Partser.initial
    /\ (forall fuel input i env,
           partialMatch (S fuel) st' Partser.any input i env
           = all_behaviour fuel (partialMatch fuel st') input i env).
Proof.
  exact (proj1 replace_rebinds_clone_snapshots Partser.initial
               Partser.any Partser.all _ _ initial_any initial_all).
Defined.

(** ** [alt] *)

Lemma alt_empty (st : Store) :
  Partser.alt [] st = Throw (TypeError "Partser.alt: Zero alternates").
Proof. reflexivity. Qed.

Lemma assertParsers_ok (fn : string) (parsers : list loc) (st : Store) :
  Forall (fun p => is_Some (st !! p)) parsers ->
  assertParsers fn parsers st = Ret tt.
Proof.
  induction 1 as [|p ps [o Hp] _ IH]; [reflexivity|].
  cbn [assertParsers]. now rewrite (assertParser_ok _ _ _ _ Hp), bind_Ret.
Qed.


(** Alternatives that fail are skipped; the first success is returned. *)
Lemma alt_loop_first_success (call : Call) (input : string) (i : Z)
  (env : Env) (failed : list loc) (rs : list Result) (p : loc)
  (rest : list loc) (j : Z) (v : Value) (acc : option Result) :
  Forall2 (fun q r => call q input i env = Ret r /\ status r = false)
          failed rs ->
  call p input i env = Ret (Success j v) ->
  alt_loop call input (failed ++ p :: rest) i env acc = Ret (Success j v).
Proof.
  intros Hfail Hp. revert acc.
  induction Hfail as [|q r qs rs' [Hq Hs] _ IH]; intros acc; cbn [app alt_loop].
  - now rewrite Hp, bind_Ret, mergeOver_success.
  - rewrite Hq, bind_Ret, mergeOver_status, Hs. apply IH.
Qed.

(** When every alternative fails, the failures are merged in order. *)
Lemma alt_loop_all_fail (call : Call) (input : string) (i : Z) (env : Env)
  (ps : list loc) (rs : list Result) (acc : option Result) (merged : Result) :
  Forall2 (fun q r => call q input i env = Ret r /\ status r = false) ps rs ->
  mergeAll acc rs = Some merged ->
  alt_loop call input ps i env acc = Ret merged.
Proof.
  intros Hfail. revert acc.
  induction Hfail as [|q r qs rs' [Hq Hs] _ IH]; intros acc Hm.
  - cbn in *. now rewrite Hm.
  - cbn [alt_loop mergeAll fold_left] in *.
    rewrite Hq, bind_Ret, mergeOver_status, Hs. now apply IH.
Qed.

(** The merged result of failed attempts is a failure. *)
Lemma mergeAll_failure (rs : list Result) (acc : option Result)
  (merged : Result) :
  Forall (fun r => status r = false) rs ->
  (forall a, acc = Some a -> status a = false) ->
  mergeAll acc rs = Some merged ->
  status merged = false.
Proof.
  intros Hrs. revert acc.
  induction Hrs as [|r rs' Hr _ IH]; intros acc Hacc Hm; cbn in Hm.
  - now apply Hacc.
  - apply (IH (Some (mergeOver r acc))); [|exact Hm].
    intros a [= <-]. now rewrite mergeOver_status.
Qed.

(** C6.  [alt] on the two alternatives [seq([string("a"), string("b")])]
    and [string("c")], run on ["ax"]: the first alternative fails at
    index 1 expecting ['b'], the second at index 0 expecting ['c'], and
    the parser returns a failure at index 0 that lists ['c'] and ['b'],
    so the furthest failure did not win.  The result is the merge
    [mergeOver] computes, which keeps the index of the later attempt. *)
Theorem alt_furthest_failure_lost :
  match
    '(a, st) ← Partser.string "a" Partser.initial;
    '(b, st) ← Partser.string "b" st;
    '(c, st) ← Partser.string "c" st;
    '(ab, st) ← Partser.seq [a; b] None st;
    '(p, st) ← Partser.alt [ab; c] st;
    Ret (ab, c, p, st)
  with
  | Ret (ab, c, p, st) =>
      partialMatch 2 st ab "ax" 0 VUndefined = Ret (Failure 1 [VStr "'b'"])
      /\ partialMatch 1 st c "ax" 0 VUndefined = Ret (Failure 0 [VStr "'c'"])
      /\ partialMatch 3 st p "ax" 0 VUndefined
         = Ret (Failure 0 [VStr "'c'"; VStr "'b'"])
      /\ Partser.parse 5 st p "ax" VUndefined 0
         = Ret (Failure 0 [VStr "'c'"; VStr "'b'"])
  | _ => False
  end.
Proof. vm_compute. repeat split. Qed.

(** ** [times] *)

Section TimesLoops.

Variables (call : Call) (parser : loc).
Variable chainEnv : option (Value -> Env -> Env).
Variable input : string.


Lemma times_reps_state (k : nat) (s0 s : TimesState) :
  times_reps k call parser chainEnv input s0 = Some s ->
  ts_times s = ts_times s0 + Z.of_nat k
  /\ length (ts_successes s) = (length (ts_successes s0) + k)%nat.
Proof.
  revert s0. induction k as [|k IH]; intros s0 Hreps; cbn in Hreps.
  - injection Hreps as <-. split; [lia | lia].
  - destruct (call parser input (ts_index s0) (ts_env s0)) as [r| |];
      try discriminate Hreps.
    destruct (status r); try discriminate Hreps.
    apply IH in Hreps as [Ht Hl]. cbn in Ht, Hl.
    rewrite length_app in Hl. cbn in Hl. split; lia.
Qed.

Lemma times_reps_split (a b : nat) (s0 s : TimesState) :
  times_reps (a + b) call parser chainEnv input s0 = Some s ->
  exists s1, times_reps a call parser chainEnv input s0 = Some s1
             /\ times_reps b call parser chainEnv input s1 = Some s.
Proof.
  revert s0. induction a as [|a IH]; intros s0 Hreps.
  - exists s0. split; [reflexivity | exact Hreps].
  - cbn in Hreps |- *.
    destruct (call parser input (ts_index s0) (ts_env s0)) as [r| |];
      try discriminate Hreps.
    destruct (status r); try discriminate Hreps.
    now apply IH.
Qed.

(** [k] successes below the bound take the first loop from [s0] to the
    state after them. *)
Lemma times_required_run (min : Num) (k fuel : nat) (s0 s : TimesState) :
  times_reps k call parser chainEnv input s0 = Some s ->
  (forall j, (j < k)%nat -> lt_num (ts_times s0 + Z.of_nat j) min = true) ->
  times_required (k + fuel) call parser chainEnv input min s0
  = times_required fuel call parser chainEnv input min s.
Proof.
  revert s0. induction k as [|k IH]; intros s0 Hreps Hlt; cbn in Hreps.
  - now injection Hreps as <-.
  - cbn [Nat.add times_required].
    specialize (Hlt 0%nat ltac:(lia)) as H0. rewrite Z.add_0_r in H0.
    rewrite H0.
    destruct (call parser input (ts_index s0) (ts_env s0)) as [r| |];
      try discriminate Hreps.
    rewrite bind_Ret.
    destruct (status r); try discriminate Hreps.
    apply IH; [exact Hreps|].
    intros j Hj. cbn [ts_times times_step].
    specialize (Hlt (S j) ltac:(lia)).
    now replace (ts_times s0 + 1 + Z.of_nat j)
      with (ts_times s0 + Z.of_nat (S j)) by lia.
Qed.

(** The same for the second loop. *)
Lemma times_allowed_run (max : Num) (k fuel : nat) (s0 s : TimesState) :
  times_reps k call parser chainEnv input s0 = Some s ->
  (forall j, (j < k)%nat -> lt_num (ts_times s0 + Z.of_nat j) max = true) ->
  times_allowed (k + fuel) call parser chainEnv input max s0
  = times_allowed fuel call parser chainEnv input max s.
Proof.
  revert s0. induction k as [|k IH]; intros s0 Hreps Hlt; cbn in Hreps.
  - now injection Hreps as <-.
  - cbn [Nat.add times_allowed].
    specialize (Hlt 0%nat ltac:(lia)) as H0. rewrite Z.add_0_r in H0.
    rewrite H0.
    destruct (call parser input (ts_index s0) (ts_env s0)) as [r| |];
      try discriminate Hreps.
    rewrite bind_Ret.
    destruct (status r); try discriminate Hreps.
    apply IH; [exact Hreps|].
    intros j Hj. cbn [ts_times times_step].
    specialize (Hlt (S j) ltac:(lia)).
    now replace (ts_times s0 + 1 + Z.of_nat j)
      with (ts_times s0 + Z.of_nat (S j)) by lia.
Qed.


(** Once [min] successes are there, the repetition stops with a success
    at the bound [max] or at the first mismatch. *)
Lemma times_soft_stop (min max : Num) (i : Z) (env : Env)
  (k fuel : nat) (s : TimesState) :
  times_reps k call parser chainEnv input (times_init i env) = Some s ->
  lt_num (Z.of_nat k) min = false ->
  (forall j, (j < k)%nat -> lt_num (Z.of_nat j) max = true) ->
  lt_num (Z.of_nat k) max = false
  \/ (exists failure,
         call parser input (ts_index s) (ts_env s) = Ret failure
         /\ status failure = false) ->
  (k < fuel)%nat ->
  times_behaviour parser min max chainEnv fuel call input i env
  = Ret (makeSuccess (ts_index s) (VArr (ts_successes s))).
Proof.
  intros Hreps Hmin Hmax Hstop Hfuel.
  destruct min as [m|]; [|discriminate Hmin].
  cbn in Hmin. apply Z.ltb_ge in Hmin.
  set (k1 := Z.to_nat m).
  replace k with (k1 + (k - k1))%nat in Hreps by lia.
  apply times_reps_split in Hreps as (s1 & Hreps1 & Hreps2).
  destruct (times_reps_state _ _ _ Hreps1) as [Ht1 _].
  destruct (times_reps_state _ _ _ Hreps2) as [Ht2 _].
  cbn [ts_times times_init] in Ht1. rewrite Z.add_0_l in Ht1.
  unfold times_behaviour.
  replace fuel with (k1 + (fuel - k1))%nat at 1 by lia.
  rewrite (times_required_run (Finite m) k1 _ _ s1 Hreps1).
  2:{ intros j Hj. cbn [ts_times times_init lt_num]. apply Z.ltb_lt. lia. }
  assert (Hend : lt_num (ts_times s1) (Finite m) = false)
    by (cbn; apply Z.ltb_ge; lia).
  assert (Hreq : times_required (fuel - k1) call parser chainEnv input
                   (Finite m) s1 = Ret (inr s1))
    by (destruct (fuel - k1)%nat; cbn [times_required]; now rewrite Hend).
  rewrite Hreq, bind_Ret.
  replace fuel with ((k - k1) + S (fuel - S k + k1))%nat by lia.
  rewrite (times_allowed_run max (k - k1) _ _ s Hreps2).
  2:{ intros j Hj. rewrite Ht1, <- Nat2Z.inj_add. apply Hmax. lia. }
  assert (Hk : ts_times s = Z.of_nat k) by lia.
  cbn [times_allowed]. rewrite Hk.
  destruct Hstop as [Hstop|(failure & Hcall & Hfail)].
  - now rewrite Hstop, bind_Ret.
  - destruct (lt_num (Z.of_nat k) max); [|now rewrite bind_Ret].
    now rewrite Hcall, bind_Ret, Hfail, bind_Ret.
Qed.

End TimesLoops.

(** The attempts before a mismatch were successes, so a failure at a
    cursor position from 0 on is returned as it is. *)
Lemma mergeOver_failure_after_success (failure : Result)
  (previous : option Result) :
  (forall r, previous = Some r -> status r = true) ->
  status failure = false ->
  0 <= index failure ->
  mergeOver failure previous = failure.
Proof.
  intros Hprev Hfail Hidx.
  destruct previous as [r|]; [|reflexivity].
  specialize (Hprev r eq_refl).
  destruct failure as [j v|j e]; [discriminate Hfail|].
  destruct r as [j' v'|j' e']; [|discriminate Hprev].
  cbn in *. unfold MergeOver.furthest; cbn.
  destruct (Z.gtb_spec j (-1)); [reflexivity | lia].
Qed.




(** ** The cursor moves forward *)

Lemma relIndex_bounds (L k : Z) :
  0 <= L -> 0 <= Str.relIndex L k <= L.
Proof.
  intros HL. unfold Str.relIndex. destruct (Z.ltb_spec k 0); lia.
Qed.

Lemma slice_len (input : string) (a b : Z) :
  Str.len (Str.slice input a b)
  = Z.max (Str.relIndex (Str.len input) b - Str.relIndex (Str.len input) a) 0.
Proof.
  pose proof (relIndex_bounds (Str.len input) a (len_nonneg input)) as Ha.
  pose proof (relIndex_bounds (Str.len input) b (len_nonneg input)) as Hb.
  unfold Str.slice. unfold Str.len at 1. rewrite substring_length.
  unfold Str.len in *. lia.
Qed.

(** A slice of [n > 0] characters taken at [i] ends within the input. *)
Lemma slice_fits (input : string) (i n : Z) :
  i <= Str.len input -> 0 <= n ->
  Str.len (Str.slice input i (i + n)) = n ->
  i + n <= Str.len input.
Proof.
  intros Hi Hn. rewrite slice_len. unfold Str.relIndex.
  pose proof (len_nonneg input).
  destruct (Z.ltb_spec i 0), (Z.ltb_spec (i + n) 0); lia.
Qed.

Lemma sliceFrom_fits (input : string) (i : Z) :
  i <= Str.len input ->
  i + Str.len (Str.sliceFrom input i) <= Str.len input.
Proof.
  intros Hi. unfold Str.sliceFrom. rewrite slice_len. unfold Str.relIndex.
  pose proof (len_nonneg input).
  destruct (Z.ltb_spec i 0), (Z.ltb_spec (Str.len input) 0); lia.
Qed.

Lemma forward_failure (input : string) (i : Z) (r : Result) :
  status r = false -> forward input i (Ret r).
Proof. now destruct r. Qed.

Lemma forward_trans (input : string) (i j : Z) (o : Outcome Result) :
  i <= j -> forward input j o -> forward input i o.
Proof. destruct o as [[k v|k e]| |]; cbn; auto. lia. Qed.

Section Forward.

Variable call : Call.
Hypothesis call_ok : call_forward call.

Variables (input : string) (start : Z).

Lemma seq_loop_forward (chainEnv : option (Value -> Env -> Env))
  (parsers : list loc) (i : Z) (env : Env) (result : option Result)
  (accum : list Value) :
  start <= i <= Str.len input ->
  forward input start (seq_loop chainEnv call input parsers i env result accum).
Proof.
  revert i env result accum.
  induction parsers as [|p rest IH]; intros i env result accum Hi;
    cbn [seq_loop].
  - now rewrite mergeOver_success.
  - pose proof (call_ok p input i env (proj2 Hi)) as Hp.
    destruct (call p input i env) as [[j v|j e]| |]; cbn [mbind Outcome_bind];
      try exact I.
    + rewrite mergeOver_success. cbn [status negb index value].
      cbn in Hp. apply IH. lia.
    + assert (Hs : status (mergeOver (Failure j e) result) = false)
        by now rewrite mergeOver_status.
      rewrite Hs. cbn [negb]. now apply forward_failure.
Qed.

Lemma alt_loop_forward (parsers : list loc) (env : Env)
  (result : option Result) :
  start <= Str.len input ->
  (forall r, result = Some r -> status r = false) ->
  forward input start (alt_loop call input parsers start env result).
Proof.
  intros Hi. revert result.
  induction parsers as [|p rest IH]; intros result Hres; cbn [alt_loop].
  - destruct result as [r|]; [|exact I].
    apply forward_failure. now apply Hres.
  - pose proof (call_ok p input start env Hi) as Hp.
    destruct (call p input start env) as [[j v|j e]| |];
      cbn [mbind Outcome_bind]; try exact I.
    + now rewrite mergeOver_success.
    + rewrite mergeOver_status. cbn [status]. apply IH.
      intros r [= <-]. now rewrite mergeOver_status.
Qed.

Lemma times_required_forward (parser : loc)
  (chainEnv : option (Value -> Env -> Env)) (min : Num) (fuel : nat)
  (s : TimesState) :
  start <= ts_index s <= Str.len input ->
  match times_required fuel call parser chainEnv input min s with
  | Ret (inl r) => status r = false
  | Ret (inr s') => start <= ts_index s' <= Str.len input
  | _ => True
  end.
Proof.
  revert s. induction fuel as [|fuel IH]; intros s Hs; cbn [times_required];
    destruct (lt_num (ts_times s) min); try exact I; try exact Hs.
  pose proof (call_ok parser input (ts_index s) (ts_env s) (proj2 Hs)) as Hp.
  destruct (call parser input (ts_index s) (ts_env s)) as [[j v|j e]| |];
    cbn [mbind Outcome_bind status]; try exact I.
  - apply IH. cbn in Hp |- *. lia.
  - now rewrite mergeOver_status.
Qed.

Lemma times_allowed_forward (parser : loc)
  (chainEnv : option (Value -> Env -> Env)) (max : Num) (fuel : nat)
  (s : TimesState) :
  start <= ts_index s <= Str.len input ->
  match times_allowed fuel call parser chainEnv input max s with
  | Ret s' => start <= ts_index s' <= Str.len input
  | _ => True
  end.
Proof.
  revert s. induction fuel as [|fuel IH]; intros s Hs; cbn [times_allowed];
    destruct (lt_num (ts_times s) max); try exact I; try exact Hs.
  pose proof (call_ok parser input (ts_index s) (ts_env s) (proj2 Hs)) as Hp.
  destruct (call parser input (ts_index s) (ts_env s)) as [[j v|j e]| |];
    cbn [mbind Outcome_bind status]; try exact I; try exact Hs.
  apply IH. cbn in Hp |- *. lia.
Qed.

End Forward.

Lemma string_forward (str : string) : behaviour_forward (string_behaviour str).
Proof.
  intros fuel call _ input i env Hi. unfold string_behaviour.
  destruct (String.eqb_spec (Str.slice input i (i + Str.len str)) str)
    as [Heq|_]; [|exact I].
  cbn. pose proof (len_nonneg str) as Hn.
  pose proof (slice_fits input i (Str.len str) Hi Hn) as Hfit.
  rewrite Heq in Hfit. specialize (Hfit eq_refl). lia.
Qed.

Lemma regex_forward (re : RegExp) (group : Z) :
  regex_substring re -> behaviour_forward (regex_behaviour re group).
Proof.
  intros Hre fuel call _ input i env Hi. unfold regex_behaviour.
  destruct (anchored_exec re (Str.sliceFrom input i))
    as [[fullMatch groups]|] eqn:Hexec; [|exact I].
  cbn. apply Hre in Hexec.
  pose proof (sliceFrom_fits input i Hi).
  pose proof (len_nonneg fullMatch). lia.
Qed.

Lemma times_forward (p : loc) (min max : Num)
  (chainEnv : option (Value -> Env -> Env)) :
  behaviour_forward (times_behaviour p min max chainEnv).
Proof.
  intros fuel call Hcall input i env Hi. unfold times_behaviour.
  pose proof (times_required_forward call Hcall input i p chainEnv min fuel
                (times_init i env)) as Hreq.
  cbn [ts_index times_init] in Hreq. specialize (Hreq ltac:(lia)).
  destruct (times_required _ _ _ _ _ _ _) as [[r|s]| |];
    cbn [mbind Outcome_bind]; try exact I.
  - now apply forward_failure.
  - pose proof (times_allowed_forward call Hcall input i p chainEnv max fuel
                  s Hreq) as Hall.
    now destruct (times_allowed _ _ _ _ _ _ _) as [s'| |].
Qed.

(** Every behaviour the library builds moves the cursor forward, when
    started within the input. *)
Lemma LibraryBuilt_forward (b : Behaviour) :
  LibraryBuilt b -> behaviour_forward b.
Proof.
  destruct 1 as [ | | | | |str|re group Hre|v|expected|predicate text
                |allowed forbidden|p deriveEnv|lookup|parsers chainEnv
                |parsers|p min max chainEnv|p fn|p expected|p lookup|p
                |b Hb];
    try (now apply string_forward); try (now apply regex_forward);
    try (now apply times_forward); try exact Hb;
    intros fuel call Hcall input i env Hi.
  - (* any *)
    unfold any_behaviour. destruct (Z.geb_spec i (Str.len input)); cbn; lia.
  - (* all *)
    cbn. lia.
  - (* eof *)
    unfold eof_behaviour. destruct (Z.ltb_spec i (Str.len input)); cbn; lia.
  - (* index *)
    cbn. lia.
  - (* lcIndex *)
    unfold lcIndex_behaviour.
    destruct (lineAndColumnOfOffset input i). cbn. lia.
  - (* succeed *)
    cbn. lia.
  - (* fail *)
    exact I.
  - (* test *)
    unfold test_behaviour.
    destruct (Z.ltb_spec i (Str.len input)); cbn [andb]; [|exact I].
    destruct (predicate _ env); cbn; lia.
  - (* except *)
    unfold except_behaviour.
    destruct (call forbidden input i env) as [[j v|j e]| |];
      cbn [mbind Outcome_bind status]; try exact I.
    pose proof (Hcall allowed input i env Hi) as Ha.
    now destruct (call allowed input i env) as [[j' v'|j' e']| |].
  - (* subEnv *)
    apply (Hcall p input i (deriveEnv env) Hi).
  - (* from *)
    apply (Hcall (lookup env) input i env Hi).
  - (* seq *)
    apply seq_loop_forward; [exact Hcall | lia].
  - (* alt *)
    apply alt_loop_forward; [exact Hcall | exact Hi | discriminate].
  - (* map *)
    unfold map_behaviour. pose proof (Hcall p input i env Hi) as Hp.
    now destruct (call p input i env) as [[j v|j e]| |].
  - (* desc *)
    unfold desc_behaviour. pose proof (Hcall p input i env Hi) as Hp.
    now destruct (call p input i env) as [[j v|j e]| |].
  - (* chain *)
    unfold chain_behaviour. pose proof (Hcall p input i env Hi) as Hp.
    destruct (call p input i env) as [[j v|j e]| |];
      cbn [mbind Outcome_bind status negb index value]; try exact I.
    cbn in Hp. apply (forward_trans input i j); [lia|].
    apply Hcall. lia.
  - (* debug *)
    apply (Hcall p input i env Hi).
Qed.

Lemma partialMatch_forward (st : Store) (fuel : nat) :
  store_built st -> call_forward (partialMatch fuel st).
Proof.
  intros Hst. induction fuel as [|fuel IH]; intros p input i env Hi.
  - exact I.
  - unfold partialMatch; fold partialMatch.
    destruct (st !! p) as [o|] eqn:Hp; [|exact I].
    apply (LibraryBuilt_forward _ (Hst p o Hp)); assumption.
Qed.

(** The stores the constructors make stay within the library. *)
Lemma store_built_Parser (st : Store) (name : string) (b : Behaviour) :
  LibraryBuilt b -> store_built st -> store_built (Parser name b st).2.
Proof.
  intros Hb Hst l o. unfold Parser; cbn [snd].
  destruct (decide (l = fresh (dom st))) as [->|Hne].
  - rewrite lookup_insert_eq. now intros [= <-].
  - rewrite lookup_insert_ne by congruence. apply Hst.
Qed.

Lemma store_built_initial : store_built Partser.initial.
Proof.
  unfold Partser.initial, Partser.loaded; cbn [fold_left fst snd].
  repeat apply store_built_Parser;
    first [ now constructor
          | intros l o Hl; now rewrite lookup_empty in Hl ].
Qed.

Lemma Ret_Parser_inv (st st' : Store) (name : string) (b : Behaviour)
  (p : loc) :
  Ret (Parser name b st) = Ret (p, st') -> st' = (Parser name b st).2.
Proof.
  intros H.
  assert (Hpair : Parser name b st = (p, st')) by congruence.
  now rewrite Hpair.
Qed.

(** Strips the argument checks of a constructor that returned, and
    closes the goal with the constructor of [LibraryBuilt] that fits. *)
Ltac constructed Hst Hmk :=
  repeat match type of Hmk with
    | context [assertParser ?f ?p ?st] =>
        destruct (assertParser f p st); try discriminate Hmk;
        rewrite bind_Ret in Hmk
    | context [assertParsers ?f ?ps ?st] =>
        destruct (assertParsers f ps st); try discriminate Hmk;
        rewrite bind_Ret in Hmk
    end;
  apply Ret_Parser_inv in Hmk; subst;
  apply store_built_Parser; [now constructor | exact Hst].

Section Constructors.

Variables (st st' : Store) (p : loc).
Hypothesis Hst : store_built st.

Lemma except_built (allowed forbidden : loc) :
  Partser.except allowed forbidden st = Ret (p, st') -> store_built st'.
Proof. unfold Partser.except. intros Hmk. constructed Hst Hmk. Qed.

Lemma subEnv_built (baseParser : loc) (deriveEnv : Env -> Env) :
  Partser.subEnv baseParser deriveEnv st = Ret (p, st') -> store_built st'.
Proof. unfold Partser.subEnv. intros Hmk. constructed Hst Hmk. Qed.

Lemma from_built (lookup : Env -> loc) :
  Partser.from lookup st = Ret (p, st') -> store_built st'.
Proof. unfold Partser.from. intros Hmk. constructed Hst Hmk. Qed.

Lemma seq_built (parsers : list loc)
  (chainEnv : option (Value -> Env -> Env)) :
  Partser.seq parsers chainEnv st = Ret (p, st') -> store_built st'.
Proof. unfold Partser.seq. intros Hmk. constructed Hst Hmk. Qed.

Lemma custom_built (parsingFunction : Behaviour) :
  behaviour_forward parsingFunction ->
  Partser.custom parsingFunction st = Ret (p, st') -> store_built st'.
Proof. unfold Partser.custom. intros Hb Hmk. constructed Hst Hmk. Qed.

Lemma alt_built (parsers : list loc) :
  Partser.alt parsers st = Ret (p, st') -> store_built st'.
Proof.
  unfold Partser.alt. intros Hmk.
  destruct (_ =? 0); [discriminate Hmk|]. constructed Hst Hmk.
Qed.

Lemma times_built (parser : loc) (min : Num) (max : option Num)
  (chainEnv : option (Value -> Env -> Env)) :
  Partser.times parser min max chainEnv st = Ret (p, st') -> store_built st'.
Proof. unfold Partser.times. intros Hmk. constructed Hst Hmk. Qed.

Lemma map_built (parser : loc) (fn : Value -> Env -> Value) :
  Partser.map parser fn st = Ret (p, st') -> store_built st'.
Proof. unfold Partser.map. intros Hmk. constructed Hst Hmk. Qed.

Lemma desc_built (parser : loc) (expected : string) :
  Partser.desc parser expected st = Ret (p, st') -> store_built st'.
Proof. unfold Partser.desc. intros Hmk. constructed Hst Hmk. Qed.

Lemma regex_built (re : RegExp) (group : Z) :
  regex_substring re ->
  Partser.regex re group st = Ret (p, st') -> store_built st'.
Proof. unfold Partser.regex. intros Hre Hmk. constructed Hst Hmk. Qed.

Lemma succeed_built (v : Value) :
  Partser.succeed v st = Ret (p, st') -> store_built st'.
Proof. unfold Partser.succeed. intros Hmk. constructed Hst Hmk. Qed.

Lemma fail_built (expected : string) :
  Partser.fail expected st = Ret (p, st') -> store_built st'.
Proof. unfold Partser.fail. intros Hmk. constructed Hst Hmk. Qed.

Lemma test_built (predicate : string -> Env -> bool) (text : string) :
  Partser.test predicate text st = Ret (p, st') -> store_built st'.
Proof. unfold Partser.test. intros Hmk. constructed Hst Hmk. Qed.

Lemma chain_built (parser : loc) (lookup : Value -> Env -> loc) :
  Partser.chain parser lookup st = Ret (p, st') -> store_built st'.
Proof. unfold Partser.chain. intros Hmk. constructed Hst Hmk. Qed.

Lemma debug_built (parser : loc) :
  Partser.debug parser st = Ret (p, st') -> store_built st'.
Proof. unfold Partser.debug. intros Hmk. constructed Hst Hmk. Qed.

Lemma string_built (str : string) :
  Partser.string str st = Ret (p, st') -> store_built st'.
Proof. unfold Partser.string. intros Hmk. constructed Hst Hmk. Qed.

End Constructors.

Lemma seqMap_built (st st' : Store) (p : loc) (args : list loc)
  (mapper : list Value -> Value) :
  store_built st ->
  Partser.seqMap args mapper st = Ret (p, st') -> store_built st'.
Proof.
  intros Hst Hmk. unfold Partser.seqMap in Hmk.
  destruct (Partser.seq args None st) as [[sq st1]| |] eqn:Hsq;
    try discriminate Hmk.
  rewrite bind_Ret in Hmk.
  apply (map_built st1 st' p (seq_built st st1 sq Hst _ _ Hsq) _ _ Hmk).
Qed.

Lemma skip_built (st st' : Store) (p : loc) (parsers : list loc) :
  store_built st ->
  Partser.skip parsers st = Ret (p, st') -> store_built st'.
Proof.
  intros Hst Hmk. unfold Partser.skip in Hmk.
  destruct (Partser.seq parsers None st) as [[sq st1]| |] eqn:Hsq;
    try discriminate Hmk.
  rewrite bind_Ret in Hmk.
  apply (map_built st1 st' p (seq_built st st1 sq Hst _ _ Hsq) _ _ Hmk).
Qed.

Lemma mark_built (st st' : Store) (p parser : loc) :
  store_built st ->
  Partser.mark parser st = Ret (p, st') -> store_built st'.
Proof.
  intros Hst Hmk. unfold Partser.mark in Hmk.
  destruct (assertParser "mark" parser st); try discriminate Hmk.
  rewrite bind_Ret in Hmk. now apply (seqMap_built st st' p _ _ Hst Hmk).
Qed.

Lemma lcMark_built (st st' : Store) (p parser : loc) :
  store_built st ->
  Partser.lcMark parser st = Ret (p, st') -> store_built st'.
Proof.
  intros Hst Hmk. unfold Partser.lcMark in Hmk.
  destruct (assertParser "lcMark" parser st); try discriminate Hmk.
  rewrite bind_Ret in Hmk. now apply (seqMap_built st st' p _ _ Hst Hmk).
Qed.

Lemma clone_built (st st' : Store) (p parser : loc) :
  store_built st ->
  Partser.clone parser st = Ret (p, st') -> store_built st'.
Proof.
  intros Hst Hmk. unfold Partser.clone in Hmk.
  destruct (assertParser "clone" parser st); try discriminate Hmk.
  rewrite bind_Ret in Hmk.
  destruct (st !! parser) as [o|] eqn:Hp; try discriminate Hmk.
  unfold Partser.custom in Hmk. rewrite bind_Ret in Hmk.
  destruct (Parser "custom" (behaviour o) st) as [c st1] eqn:HP.
  injection Hmk as <- <-.
  assert (Hst1 : store_built st1).
  { replace st1 with (Parser "custom" (behaviour o) st).2 by now rewrite HP.
    apply store_built_Parser; [exact (Hst _ _ Hp) | exact Hst]. }
  intros l x Hl.
  destruct (decide (l = c)) as [->|Hne].
  - rewrite lookup_alter_eq in Hl.
    destruct (st1 !! c) as [n|] eqn:Hc; [|discriminate Hl].
    injection Hl as <-. exact (Hst1 _ _ Hc).
  - rewrite lookup_alter_ne in Hl by congruence. exact (Hst1 _ _ Hl).
Qed.

Lemma replace_built (st st' : Store) (original replacement : loc) :
  store_built st ->
  Partser.replace original replacement st = Ret st' -> store_built st'.
Proof.
  intros Hst Hmk. unfold Partser.replace in Hmk.
  destruct (assertParser "replace" original st); try discriminate Hmk.
  rewrite bind_Ret in Hmk.
  destruct (assertParser "replace" replacement st); try discriminate Hmk.
  rewrite bind_Ret in Hmk.
  destruct (st !! replacement) as [r|] eqn:Hr; try discriminate Hmk.
  injection Hmk as <-.
  intros l x Hl.
  destruct (decide (l = original)) as [->|Hne].
  - rewrite lookup_alter_eq in Hl.
    destruct (st !! original) as [o|] eqn:Ho; [|discriminate Hl].
    injection Hl as <-. exact (Hst _ _ Hr).
  - rewrite lookup_alter_ne in Hl by congruence. exact (Hst _ _ Hl).
Qed.

(** C9 as stated fails: started beyond the end of the input, [all]
    succeeds with the cursor at the end of the input, behind the start
    index. *)
Lemma cursor_moves_back_beyond_input :
  ~ (forall (st : Store), store_built st ->
     forall (fuel : nat) (p : loc) (input : string) (startIndex : Z)
            (env : Env) (j : Z) (v : Value),
       partialMatch fuel st p input startIndex env = Ret (Success j v) ->
       startIndex <= j).
Proof.
  intros H.
  specialize (H Partser.initial store_built_initial 1%nat Partser.all
                "ab" 5 VUndefined 2 (VStr "") eq_refl).
  lia.
Qed.

(** C9, amended.  For every store of parsers built from the library's
    primitives and combinators (user-supplied functions are functions
    of the model, hence pure; a custom behaviour is assumed to have the
    property itself), whenever the partial-match entry of a parser is
    started at a start index that is not beyond the end of the input
    and returns a success, the index of the success is at least the
    start index, and not beyond the end of the input either. *)
Theorem cursor_never_moves_back (st : Store) (fuel : nat) (p : loc)
  (input : string) (startIndex : Z) (env : Env) (j : Z) (v : Value) :
  store_built st ->
  startIndex <= Str.len input ->
  partialMatch fuel st p input startIndex env = Ret (Success j v) ->
  startIndex <= j <= Str.len input.
Proof.
  intros Hst Hi Hrun.
  pose proof (partialMatch_forward st fuel Hst p input startIndex env Hi) as H.
  now rewrite Hrun in H.
Qed.

Lemma cursor_never_moves_back_witness :
  0 <= 1 <= Str.len "ab".
Proof.
  exact (cursor_never_moves_back Partser.initial 1 Partser.any "ab" 0
           VUndefined 1 (VStr "a") store_built_initial
           ltac:(vm_compute; discriminate) eq_refl).
Defined.

(** * Further properties of the library *)

(** ** [except] *)

(** X1.  [except(allowed, forbidden)] succeeds exactly when [forbidden]
    fails and [allowed] succeeds at the same cursor, and then returns
    [allowed]'s result; every failure it returns is reported at the
    start cursor, wherever [allowed] had failed. *)
Theorem except_result (allowed forbidden : loc) (fuel : nat) (call : Call)
  (input : string) (i : Z) (env : Env) :
  (forall j v,
      except_behaviour allowed forbidden fuel call input i env
      = Ret (Success j v)
      <-> (exists jf ef, call forbidden input i env = Ret (Failure jf ef))
          /\ call allowed input i env = Ret (Success j v))
  /\ (forall j e,
         except_behaviour allowed forbidden fuel call input i env
         = Ret (Failure j e) -> j = i)
  /\ (forall j v,
         call forbidden input i env = Ret (Success j v) ->
         except_behaviour allowed forbidden fuel call input i env
         = Ret (Failure i [VStr ("something that is not '"
                                 ++ toString v ++ "'")])).
Proof.
  unfold except_behaviour.
  destruct (call forbidden input i env) as [[jf vf|jf ef]| |];
    cbn [mbind Outcome_bind status value makeFailure].
  - split; [|split].
    + intros j v. split; [discriminate|].
      intros [(jf' & ef' & H) _]. discriminate H.
    + now intros j e [= <- _].
    + now intros j v [= _ <-].
  - destruct (call allowed input i env) as [[ja va|ja ea]| |];
      cbn [mbind Outcome_bind status makeFailure].
    + split; [|split]; [|discriminate|discriminate].
      intros j v. split; [intros H; split; [eauto | exact H] | now intros [_ H]].
    + split; [|split]; [| |discriminate].
      * intros j v. split; [discriminate | now intros [_ H]].
      * now intros j e [= <- _].
    + repeat split; try discriminate. now intros [_ H].
    + repeat split; try discriminate. now intros [_ H].
  - repeat split; try discriminate. intros [(jf & ef & H) _]. discriminate H.
  - repeat split; try discriminate. intros [(jf & ef & H) _]. discriminate H.
Qed.

(** ** [seq] *)

Lemma seq_loop_steps (chainEnv : option (Value -> Env -> Env)) (call : Call)
  (input : string) (done rest : list loc) (i j : Z) (env env' : Env)
  (result : option Result) (accum vals : list Value) :
  (forall r, result = Some r -> status r = true) ->
  seq_steps chainEnv call input done i env accum = Some (j, env', vals) ->
  length vals = (length accum + length done)%nat
  /\ exists result',
      (forall r, result' = Some r -> status r = true)
      /\ seq_loop chainEnv call input (done ++ rest) i env result accum
         = seq_loop chainEnv call input rest j env' result' vals.
Proof.
  revert i env result accum.
  induction done as [|p ps IH]; intros i env result accum Hres Hsteps;
    cbn [seq_steps] in Hsteps.
  - injection Hsteps as <- <- <-. split; [cbn; lia|]. now exists result.
  - destruct (call p input i env) as [[k v|k e]| |] eqn:Hp;
      try discriminate Hsteps.
    destruct (IH k (applyChainEnv chainEnv v env) (Some (Success k v))
                 (accum ++ [v])%list) as (Hlen & result' & Hres' & Heq);
      [now intros r [= <-] | exact Hsteps |].
    split; [rewrite Hlen, length_app; cbn; lia|].
    exists result'. split; [exact Hres'|].
    cbn [app seq_loop]. rewrite Hp, bind_Ret, mergeOver_success.
    cbn [status negb index value]. exact Heq.
Qed.

(** X2.  [seq(parsers, chainEnv)]: when all parsers succeed one after
    the other, it succeeds at the cursor the last one left, with the
    array of their values, one per parser.  When the first parsers
    succeed and the next one fails at a cursor from 0 on, that failure
    is returned as it is and the remaining parsers are not run. *)
Theorem seq_result (chainEnv : option (Value -> Env -> Env)) (call : Call)
  (fuel : nat) (input : string) (i : Z) (env : Env) :
  (forall parsers j env' vals,
      seq_steps chainEnv call input parsers i env [] = Some (j, env', vals) ->
      seq_behaviour parsers chainEnv fuel call input i env
      = Ret (Success j (VArr vals))
      /\ length vals = length parsers)
  /\ (forall done p rest j env' vals jf ef,
         seq_steps chainEnv call input done i env [] = Some (j, env', vals) ->
         call p input j env' = Ret (Failure jf ef) ->
         0 <= jf ->
         seq_behaviour (done ++ p :: rest) chainEnv fuel call input i env
         = Ret (Failure jf ef)).
Proof.
  split.
  - intros parsers j env' vals Hsteps. unfold seq_behaviour.
    destruct (seq_loop_steps chainEnv call input parsers [] i j env env'
                None [] vals) as (Hlen & result' & _ & Heq);
      [discriminate | exact Hsteps |].
    rewrite app_nil_r in Heq. rewrite Heq. cbn [seq_loop].
    now rewrite mergeOver_success.
  - intros done p rest j env' vals jf ef Hsteps Hp Hjf. unfold seq_behaviour.
    destruct (seq_loop_steps chainEnv call input done (p :: rest) i j env env'
                None [] vals) as (_ & result' & Hres' & Heq);
      [discriminate | exact Hsteps |].
    rewrite Heq. cbn [seq_loop]. rewrite Hp, bind_Ret.
    rewrite (mergeOver_failure_after_success (Failure jf ef) result' Hres');
      [reflexivity | reflexivity | exact Hjf].
Qed.

Lemma seq_result_witness :
  seq_behaviour [Partser.any; Partser.eof] None 0%nat
    (partialMatch 1 Partser.initial) "a" 0 VUndefined
  = Ret (Success 1 (VArr [VStr "a"; VNull]))
  /\ seq_behaviour ([Partser.any] ++ Partser.any :: [Partser.eof]) None 0%nat
       (partialMatch 1 Partser.initial) "a" 0 VUndefined
     = Ret (Failure 1 [VStr "any character"]).
Proof.
  split.
  - exact (proj1 (proj1 (seq_result None (partialMatch 1 Partser.initial)
                           0%nat "a" 0 VUndefined)
                        [Partser.any; Partser.eof] 1 VUndefined
                        [VStr "a"; VNull] eq_refl)).
  - exact (proj2 (seq_result None (partialMatch 1 Partser.initial)
                    0%nat "a" 0 VUndefined)
                 [Partser.any] Partser.any [Partser.eof] 1 VUndefined
                 [VStr "a"] 1 [VStr "any character"] eq_refl eq_refl
                 ltac:(discriminate)).
Defined.

(** ** [alt], continued *)

(** X3.  [alt] skips the alternatives that fail and returns the result
    of the first one that succeeds; the alternatives after it are not
    run, so they have no influence on the result. *)
Theorem alt_first_success (call : Call) (fuel : nat) (input : string)
  (i : Z) (env : Env) (failed : list loc) (rs : list Result) (p : loc)
  (rest : list loc) (j : Z) (v : Value) :
  Forall2 (fun q r => call q input i env = Ret r /\ status r = false)
          failed rs ->
  call p input i env = Ret (Success j v) ->
  alt_behaviour (failed ++ p :: rest) fuel call input i env
  = Ret (Success j v).
Proof.
  intros Hfailed Hp. unfold alt_behaviour.
  now apply (alt_loop_first_success call input i env failed rs).
Qed.

Lemma alt_first_success_witness :
  alt_behaviour ([Partser.eof] ++ Partser.any :: [Partser.all]) 0%nat
    (partialMatch 1 Partser.initial) "ab" 0 VUndefined
  = Ret (Success 1 (VStr "a")).
Proof.
  apply (alt_first_success (partialMatch 1 Partser.initial) 0%nat "ab" 0
           VUndefined [Partser.eof] [Failure 0 [VStr "EOF"]]).
  - repeat constructor.
  - reflexivity.
Defined.




(** ** [times], continued *)





(** ** How combinators compose *)

(** X6.  Mapping twice is mapping once with the composed function: the
    parser [map(map(p, f), g)] returns what [map(p, (v, env) => g(f(v,
    env), env))] returns. *)
Theorem map_map (st : Store) (outer inner fused p : loc)
  (f g : Value -> Env -> Value) (n1 n2 n3 : string) (fuel : nat)
  (input : string) (i : Z) (env : Env) :
  st !! inner = Some (mkParserObj n1 (map_behaviour p f)) ->
  st !! outer = Some (mkParserObj n2 (map_behaviour inner g)) ->
  st !! fused
  = Some (mkParserObj n3 (map_behaviour p (fun v e => g (f v e) e))) ->
  partialMatch (S (S fuel)) st outer input i env
  = partialMatch (S fuel) st fused input i env.
Proof.
  intros Hinner Houter Hfused.
  rewrite (partialMatch_step _ _ _ _ _ _ _ Houter).
  rewrite (partialMatch_step _ _ _ _ _ _ _ Hfused).
  cbn [behaviour]. unfold map_behaviour at 1.
  rewrite (partialMatch_step _ _ _ _ _ _ _ Hinner).
  cbn [behaviour]. unfold map_behaviour.
  now destruct (partialMatch fuel st p input i env) as [[j v|j e]| |].
Qed.

Lemma map_map_witness :
  let f := fun (v : Value) (_ : Env) => VArr [v] in
  let g := fun (v : Value) (_ : Env) => VArr [v; v] in
  let st : Store :=
    <[8%positive := mkParserObj "map"
                      (map_behaviour Partser.any (fun v e => g (f v e) e))]>
      (<[7%positive := mkParserObj "map" (map_behaviour 6%positive g)]>
         (<[6%positive := mkParserObj "map" (map_behaviour Partser.any f)]>
            Partser.initial)) in
  partialMatch 3 st 7%positive "ab" 0 VUndefined
  = partialMatch 2 st 8%positive "ab" 0 VUndefined.
Proof.
  intros f g st.
  exact (map_map st 7%positive 6%positive 8%positive Partser.any f g
           "map" "map" "map" 1%nat "ab" 0 VUndefined
           eq_refl eq_refl eq_refl).
Defined.

(** X7.  Of two nested descriptions the outer one is reported:
    [desc(desc(p, a), b)] returns what [desc(p, b)] returns, a success
    of [p] unchanged and a failure at [p]'s failure index with [b] as
    its only description. *)
Theorem desc_desc (st : Store) (outer inner direct p : loc) (a b : string)
  (n1 n2 n3 : string) (fuel : nat) (input : string) (i : Z) (env : Env) :
  st !! inner = Some (mkParserObj n1 (desc_behaviour p a)) ->
  st !! outer = Some (mkParserObj n2 (desc_behaviour inner b)) ->
  st !! direct = Some (mkParserObj n3 (desc_behaviour p b)) ->
  partialMatch (S (S fuel)) st outer input i env
  = partialMatch (S fuel) st direct input i env
  /\ forall r,
      partialMatch fuel st p input i env = Ret r ->
      partialMatch (S (S fuel)) st outer input i env
      = Ret (if status r then r else Failure (index r) [VStr b]).
Proof.
  intros Hinner Houter Hdirect.
  rewrite (partialMatch_step _ _ _ _ _ _ _ Houter).
  rewrite (partialMatch_step _ _ _ _ _ _ _ Hdirect).
  cbn [behaviour]. unfold desc_behaviour at 1 3.
  rewrite (partialMatch_step _ _ _ _ _ _ _ Hinner).
  cbn [behaviour]. unfold desc_behaviour.
  destruct (partialMatch fuel st p input i env) as [[j v|j e]| |];
    split; try reflexivity; try discriminate; now intros r [= <-].
Qed.

Lemma desc_desc_witness :
  let st : Store :=
    <[8%positive := mkParserObj "desc" (desc_behaviour Partser.any "b")]>
      (<[7%positive := mkParserObj "desc" (desc_behaviour 6%positive "b")]>
         (<[6%positive := mkParserObj "desc" (desc_behaviour Partser.any "a")]>
            Partser.initial)) in
  partialMatch 3 st 7%positive "" 0 VUndefined
  = partialMatch 2 st 8%positive "" 0 VUndefined.
Proof.
  intros st.
  exact (proj1 (desc_desc st 7%positive 6%positive 8%positive Partser.any
                  "a" "b" "desc" "desc" "desc" 1%nat "" 0 VUndefined
                  eq_refl eq_refl eq_refl)).
Defined.

(** X8.  [chain(p, () => q)] and [seq([p, q])] accept the same inputs
    and stop at the same cursor: one succeeds with the value of [q]
    exactly when the other succeeds with the pair of both values, and
    they return the same failures (at cursors from 0 on). *)
Theorem chain_seq (p q : loc) (call : Call) (fuel : nat) (input : string)
  (i : Z) (env : Env) :
  (forall j v2,
      chain_behaviour p (fun _ _ => q) fuel call input i env
      = Ret (Success j v2)
      <-> exists v1,
          seq_behaviour [p; q] None fuel call input i env
          = Ret (Success j (VArr [v1; v2])))
  /\ (forall j e,
         0 <= j ->
         chain_behaviour p (fun _ _ => q) fuel call input i env
         = Ret (Failure j e)
         <-> seq_behaviour [p; q] None fuel call input i env
             = Ret (Failure j e)).
Proof.
  unfold chain_behaviour, seq_behaviour. cbn [seq_loop].
  destruct (call p input i env) as [[j1 v1|j1 e1]| |];
    cbn [mbind Outcome_bind]; rewrite ?mergeOver_success;
    cbn [status negb index value applyChainEnv app].
  - destruct (call q input j1 env) as [[j2 v2|j2 e2]| |];
      cbn [mbind Outcome_bind].
    + rewrite !mergeOver_success. cbn [status negb index value].
      split.
      * intros j v. split.
        -- intros [= <- <-]. now exists v1.
        -- now intros [v1' [= <- _ <-]].
      * intros j e _. split; discriminate.
    + assert (Hs : status (mergeOver (Failure j2 e2) (Some (Success j1 v1)))
                   = false) by now rewrite mergeOver_status.
      rewrite Hs. cbn [negb]. split.
      * intros j v. split; [discriminate|]. intros [v1' H].
        assert (Hr : mergeOver (Failure j2 e2) (Some (Success j1 v1))
                     = Success j (VArr [v1'; v])) by congruence.
        rewrite Hr in Hs. discriminate Hs.
      * intros j e Hj. split.
        -- intros [= <- <-].
           rewrite mergeOver_failure_after_success;
             [reflexivity | now intros r [= <-] | reflexivity | exact Hj].
        -- intros H.
           pose proof (mergeOver_index (Failure j2 e2) (Some (Success j1 v1)))
             as Hi.
           assert (Hr : mergeOver (Failure j2 e2) (Some (Success j1 v1))
                        = Failure j e) by congruence.
           rewrite Hr in Hi. cbn in Hi. subst j2.
           rewrite mergeOver_failure_after_success in Hr;
             [now rewrite Hr | now intros r [= <-] | reflexivity | exact Hj].
    + split; [intros j v|intros j ex _]; split; try discriminate.
      intros [v1' H]; discriminate H.
    + split; [intros j v|intros j ex _]; split; try discriminate.
      intros [v1' H]; discriminate H.
  - cbn [mergeOver]. cbn [status negb].
    split; [intros j v|intros j ex _]; split; try discriminate; auto.
    intros [v1' H]; discriminate H.
  - split; [intros j v|intros j ex _]; split; try discriminate.
    intros [v1' H]; discriminate H.
  - split; [intros j v|intros j ex _]; split; try discriminate.
    intros [v1' H]; discriminate H.
Qed.

(** ** [mark] and [lcMark] *)

Lemma seq_ok (st : Store) (parsers : list loc)
  (chainEnv : option (Value -> Env -> Env)) :
  Forall (fun q => is_Some (st !! q)) parsers ->
  Partser.seq parsers chainEnv st
  = Ret (Parser ("seq(*" ++ Str.ofZ (Z.of_nat (length parsers)) ++ ")")
                (seq_behaviour parsers chainEnv) st).
Proof.
  intros Hall. unfold Partser.seq.
  now rewrite (assertParsers_ok _ _ _ Hall), bind_Ret.
Qed.

(** A parser wrapped between two runs of a position reader [pos], as
    [mark] and [lcMark] build it with [seqMap]. *)
Lemma seqMap_between (st : Store) (pos parser : loc) (o opos : ParserObj)
  (pv : string -> Z -> Value) :
  st !! parser = Some o ->
  st !! pos = Some opos ->
  (forall fuel call input i env,
      behaviour opos fuel call input i env = Ret (Success i (pv input i))) ->
  exists (m : loc) (st' : Store),
    Partser.seqMap [pos; parser; pos] markEnvelope st = Ret (m, st')
    /\ (forall l x, st !! l = Some x -> st' !! l = Some x)
    /\ forall (f : nat) (input : string) (i : Z) (env : Env),
        (forall j v,
            partialMatch (S f) st' parser input i env = Ret (Success j v) ->
            partialMatch (S (S (S f))) st' m input i env
            = Ret (Success j (VObj [("start", pv input i); ("value", v);
                                    ("end", pv input j)])))
        /\ (forall j e,
               partialMatch (S f) st' parser input i env
               = Ret (Failure j e) ->
               0 <= j ->
               partialMatch (S (S (S f))) st' m input i env
               = Ret (Failure j e)).
Proof.
  intros Hp Hpos Hbeh.
  pose (sq := Parser "seq(*3)" (seq_behaviour [pos; parser; pos] None) st).
  pose (m := Parser "map" (map_behaviour sq.1 (spread markEnvelope)) sq.2).
  assert (Hmk : Partser.seqMap [pos; parser; pos] markEnvelope st
                = Ret (m.1, m.2)).
  { unfold Partser.seqMap. rewrite seq_ok by (repeat constructor; eauto).
    change (Parser _ (seq_behaviour [pos; parser; pos] None) st) with sq.
    rewrite bind_Ret, (surjective_pairing sq).
    rewrite (map_ok sq.2 sq.1 _ _ (Parser_lookup_new _ _ st)).
    fold m. now rewrite (surjective_pairing m). }
  assert (Hold : forall l x, st !! l = Some x -> m.2 !! l = Some x)
    by (intros l x Hl; now apply Parser_lookup_old, Parser_lookup_old).
  assert (Hm : m.2 !! m.1
               = Some (mkParserObj "map"
                         (map_behaviour sq.1 (spread markEnvelope))))
    by apply Parser_lookup_new.
  assert (Hsq : m.2 !! sq.1
                = Some (mkParserObj "seq(*3)"
                          (seq_behaviour [pos; parser; pos] None)))
    by apply Parser_lookup_old, Parser_lookup_new.
  exists m.1, m.2. split; [exact Hmk|]. split; [exact Hold|].
  intros f input i env.
  assert (Hrun : partialMatch (S (S (S f))) m.2 m.1 input i env
                 = (result ← seq_loop None (partialMatch (S f) m.2) input
                               [parser; pos] i env
                               (Some (Success i (pv input i)))
                               [pv input i];
                    if negb (status result) then Ret result
                    else Ret (makeSuccess (index result)
                                (spread markEnvelope (value result) env)))).
  { rewrite (partialMatch_step _ _ _ _ _ _ _ Hm). cbn [behaviour].
    unfold map_behaviour.
    rewrite (partialMatch_step _ _ _ _ _ _ _ Hsq). cbn [behaviour].
    unfold seq_behaviour. cbn [seq_loop].
    rewrite (partialMatch_step _ _ _ _ _ _ _ (Hold _ _ Hpos)), Hbeh.
    rewrite bind_Ret. cbn [mergeOver status negb index value applyChainEnv app].
    reflexivity. }
  rewrite Hrun. cbn [seq_loop]. split.
  - intros j v Hparser. rewrite Hparser, bind_Ret, mergeOver_success.
    cbn [status negb index value applyChainEnv app].
    rewrite (partialMatch_step _ _ _ _ _ _ _ (Hold _ _ Hpos)), Hbeh.
    rewrite bind_Ret, !mergeOver_success.
    cbn [status negb index value applyChainEnv app].
    now rewrite bind_Ret.
  - intros j e Hparser Hj. rewrite Hparser, bind_Ret.
    rewrite mergeOver_failure_after_success;
      [| now intros r [= <-] | reflexivity | exact Hj].
    cbn [status negb]. now rewrite bind_Ret.
Qed.

(** X9.  [mark(parser)] returns a parser that, where [parser] succeeds
    with value [v] from cursor [i] to cursor [j], succeeds at [j] with
    the object [{ start: i, value: v, end: j }], and where [parser]
    fails (at a cursor from 0 on) returns that failure. *)
Theorem mark_result (st : Store) (parser : loc) (o : ParserObj) :
  st !! parser = Some o ->
  indexIntact st ->
  exists (m : loc) (st' : Store),
    Partser.mark parser st = Ret (m, st')
    /\ (forall l x, st !! l = Some x -> st' !! l = Some x)
    /\ forall (f : nat) (input : string) (i : Z) (env : Env),
        (forall j v,
            partialMatch (S f) st' parser input i env = Ret (Success j v) ->
            partialMatch (S (S (S f))) st' m input i env
            = Ret (Success j (VObj [("start", VNum i); ("value", v);
                                    ("end", VNum j)])))
        /\ (forall j e,
               partialMatch (S f) st' parser input i env
               = Ret (Failure j e) ->
               0 <= j ->
               partialMatch (S (S (S f))) st' m input i env
               = Ret (Failure j e)).
Proof.
  intros Hp [name Hidx].
  destruct (seqMap_between st Partser.index parser o _ (fun _ i => VNum i)
              Hp Hidx) as (m & st' & Hmk & Hrest); [reflexivity|].
  exists m, st'. split; [|exact Hrest].
  unfold Partser.mark. now rewrite (assertParser_ok _ _ _ _ Hp), bind_Ret.
Qed.

Lemma mark_result_witness :
  exists (m : loc) (st' : Store),
    Partser.mark Partser.any Partser.initial = Ret (m, st')
    /\ (forall l x, Partser.initial !! l = Some x -> st' !! l = Some x)
    /\ forall (f : nat) (input : string) (i : Z) (env : Env),
        (forall j v,
            partialMatch (S f) st' Partser.any input i env
            = Ret (Success j v) ->
            partialMatch (S (S (S f))) st' m input i env
            = Ret (Success j (VObj [("start", VNum i); ("value", v);
                                    ("end", VNum j)])))
        /\ (forall j e,
               partialMatch (S f) st' Partser.any input i env
               = Ret (Failure j e) ->
               0 <= j ->
               partialMatch (S (S (S f))) st' m input i env
               = Ret (Failure j e)).
Proof.
  exact (mark_result Partser.initial Partser.any _ initial_any
           (ex_intro _ "index" initial_index)).
Defined.

(** X10.  [lcMark(parser)] does the same with positions that carry the
    line and the column: where [parser] succeeds with [v] from [i] to
    [j], the result is [{ start, value: v, end }] with [start] and [end]
    the objects [{ offset, line, column }] of the two cursors. *)
Theorem lcMark_result (st : Store) (parser : loc) (o : ParserObj) :
  st !! parser = Some o ->
  lcIndexIntact st ->
  exists (m : loc) (st' : Store),
    Partser.lcMark parser st = Ret (m, st')
    /\ (forall l x, st !! l = Some x -> st' !! l = Some x)
    /\ forall (f : nat) (input : string) (i : Z) (env : Env),
        (forall j v,
            partialMatch (S f) st' parser input i env = Ret (Success j v) ->
            partialMatch (S (S (S f))) st' m input i env
            = Ret (Success j (VObj [("start", lcPosition input i);
                                    ("value", v);
                                    ("end", lcPosition input j)])))
        /\ (forall j e,
               partialMatch (S f) st' parser input i env
               = Ret (Failure j e) ->
               0 <= j ->
               partialMatch (S (S (S f))) st' m input i env
               = Ret (Failure j e)).
Proof.
  intros Hp [name Hidx].
  destruct (seqMap_between st Partser.lcIndex parser o _ lcPosition
              Hp Hidx) as (m & st' & Hmk & Hrest).
  { intros fuel call input i env. cbn [behaviour].
    unfold lcIndex_behaviour, lcPosition.
    now destruct (lineAndColumnOfOffset input i). }
  exists m, st'. split; [|exact Hrest].
  unfold Partser.lcMark. now rewrite (assertParser_ok _ _ _ _ Hp), bind_Ret.
Qed.

Lemma lcMark_result_witness :
  exists (m : loc) (st' : Store),
    Partser.lcMark Partser.any Partser.initial = Ret (m, st')
    /\ (forall l x, Partser.initial !! l = Some x -> st' !! l = Some x)
    /\ forall (f : nat) (input : string) (i : Z) (env : Env),
        (forall j v,
            partialMatch (S f) st' Partser.any input i env
            = Ret (Success j v) ->
            partialMatch (S (S (S f))) st' m input i env
            = Ret (Success j (VObj [("start", lcPosition input i);
                                    ("value", v);
                                    ("end", lcPosition input j)])))
        /\ (forall j e,
               partialMatch (S f) st' Partser.any input i env
               = Ret (Failure j e) ->
               0 <= j ->
               partialMatch (S (S (S f))) st' m input i env
               = Ret (Failure j e)).
Proof.
  exact (lcMark_result Partser.initial Partser.any _ initial_any
           (ex_intro _ "lcIndex" initial_lcIndex)).
Defined.

(** ** Lines and columns *)

Lemma length_append (a b : string) :
  String.length (a ++ b) = (String.length a + String.length b)%nat.
Proof. induction a as [|x a IH]; simpl; [reflexivity | now rewrite IH]. Qed.

Lemma countChar_app (c : ascii) (a b : string) :
  countChar c (a ++ b) = (countChar c a + countChar c b)%nat.
Proof.
  induction a as [|x a IH]; simpl; [reflexivity|].
  rewrite IH. now destruct (Ascii.eqb x c).
Qed.

Lemma splitOn_length (sep : ascii) (s : string) :
  length (Str.splitOn sep s) = S (countChar sep s).
Proof.
  induction s as [|c s IH]; cbn; [reflexivity|].
  destruct (Ascii.eqb c sep); cbn; [now rewrite IH|].
  destruct (Str.splitOn sep s) as [|piece pieces]; [discriminate IH|].
  exact IH.
Qed.

(** The last piece of a split is what follows the last separator. *)
Lemma splitOn_last (sep : ascii) (s : string) :
  exists before,
    s = before ++ List.last (Str.splitOn sep s) ""
    /\ countChar sep (List.last (Str.splitOn sep s) "") = 0%nat
    /\ (before = "" \/ exists b, before = b ++ String sep "").
Proof.
  induction s as [|c s (before & Hs & Hlast & Hbefore)].
  - exists "". cbn. auto.
  - pose proof (splitOn_length sep s) as Hlen.
    cbn [Str.splitOn]. destruct (Ascii.eqb_spec c sep) as [->|Hc].
    + exists (String sep before).
      destruct (Str.splitOn sep s) as [|piece pieces] eqn:Hsplit;
        [discriminate Hlen|].
      change (List.last ("" :: piece :: pieces) "")
        with (List.last (piece :: pieces) "").
      split; [now rewrite Hs at 1|]. split; [exact Hlast|].
      right. destruct Hbefore as [->|[b ->]].
      * now exists "".
      * now exists (String sep b).
    + destruct (Str.splitOn sep s) as [|piece [|p2 ps]] eqn:Hsplit;
        [discriminate Hlen| |].
      * cbn [List.last] in *.
        assert (H0 : countChar sep s = 0%nat) by (cbn in Hlen; lia).
        rewrite Hs, countChar_app in H0.
        destruct Hbefore as [->|[b ->]].
        -- exists "". cbn in Hs. subst s. split; [reflexivity|].
           split; [|now left]. cbn.
           destruct (Ascii.eqb_spec c sep); [contradiction | exact Hlast].
        -- rewrite countChar_app in H0. cbn in H0.
           rewrite Ascii.eqb_refl in H0. lia.
      * change (List.last (String c piece :: p2 :: ps) "")
          with (List.last (piece :: p2 :: ps) "").
        exists (String c before).
        split; [now rewrite Hs at 1|]. split; [exact Hlast|].
        right. destruct Hbefore as [->|[b ->]].
        -- cbn in Hs.
           assert (H1 : countChar sep s = 0%nat) by now rewrite Hs.
           cbn in Hlen. lia.
        -- now exists (String c b).
Qed.

(** X11.  [lineAndColumnOfOffset(input, i)] returns a line number that
    is one plus the number of newline characters before the offset, and
    a column that is one plus the number of characters between the last
    of these newlines (or the start of the text) and the offset. *)
Theorem lineAndColumnOfOffset_counts (input : string) (i : Z) :
  let prefix := Str.slice input 0 i in
  let '(line, column) := lineAndColumnOfOffset input i in
  line = 1 + Z.of_nat (countChar newline prefix)
  /\ 1 <= column <= Str.len prefix + 1
  /\ exists before tail,
      prefix = before ++ tail
      /\ Str.len tail = column - 1
      /\ countChar newline tail = 0%nat
      /\ (before = "" \/ exists b, before = b ++ String newline "").
Proof.
  unfold lineAndColumnOfOffset. cbv zeta.
  set (prefix := Str.slice input 0 i).
  destruct (splitOn_last newline prefix) as (before & Hs & Hlast & Hbefore).
  split; [rewrite splitOn_length; lia|].
  set (tail := List.last (Str.splitOn newline prefix) "") in *.
  assert (Hlen : Str.len prefix = Str.len before + Str.len tail).
  { rewrite Hs at 1. unfold Str.len. rewrite length_append. lia. }
  pose proof (len_nonneg before). pose proof (len_nonneg tail).
  split; [lia|].
  exists before, tail. repeat split; auto. lia.
Qed.

(** ** Repeating [any] *)

Lemma times_reps_any (call : Call) (p : loc) (input : string) (k : nat)
  (s : TimesState) :
  (forall j env, call p input j env = any_behaviour 0%nat call input j env) ->
  0 <= ts_index s ->
  ts_index s + Z.of_nat k <= Str.len input ->
  exists s',
    times_reps k call p None input s = Some s'
    /\ ts_index s' = ts_index s + Z.of_nat k
    /\ ts_successes s'
       = (ts_successes s ++ charsFrom input (ts_index s) k)%list.
Proof.
  intros Hcall. revert s.
  induction k as [|k IH]; intros s H0 Hk; cbn [times_reps].
  - exists s. unfold charsFrom. cbn. rewrite app_nil_r. split; [|split]; auto.
    lia.
  - rewrite Hcall. unfold any_behaviour.
    destruct (Z.geb_spec (ts_index s) (Str.len input)) as [Hge|_]; [lia|].
    cbn [makeSuccess status].
    destruct (IH (times_step None s
                    (Success (ts_index s + 1)
                       (VStr (Str.charAt input (ts_index s))))
                    (mergeOver (Success (ts_index s + 1)
                                  (VStr (Str.charAt input (ts_index s))))
                               (ts_previousResult s))))
      as (s' & Hreps & Hidx & Hvals);
      [cbn; lia | cbn; lia |].
    exists s'. split; [exact Hreps|].
    cbn [times_step ts_index ts_successes index value] in Hidx, Hvals.
    split; [lia|]. rewrite Hvals, <- app_assoc. f_equal.
    unfold charsFrom. cbn [seq List.map app]. rewrite Z.add_0_r. f_equal.
    rewrite <- seq_shift, List.map_map. apply List.map_ext.
    intros n. do 2 f_equal. lia.
Qed.

(** X12.  Repeating [any] without an upper bound consumes the rest of
    the input: started within the text, [times(any, min, Infinity)]
    with [min] not above the number of characters left succeeds at the
    end of the input with these characters, one value each. *)
Theorem times_any_consumes_all (st : Store) (p : loc) (name : string)
  (input : string) (i min : Z) (env : Env) (f fuel : nat) :
  st !! p = Some (mkParserObj name any_behaviour) ->
  0 <= i <= Str.len input ->
  min <= Str.len input - i ->
  (Z.to_nat (Str.len input - i) < fuel)%nat ->
  times_behaviour p (Finite min) Infinity None fuel
    (partialMatch (S f) st) input i env
  = Ret (Success (Str.len input)
           (VArr (charsFrom input i (Z.to_nat (Str.len input - i))))).
Proof.
  intros Hp Hi Hmin Hfuel.
  set (k := Z.to_nat (Str.len input - i)) in *.
  assert (Hcall : forall j env',
             partialMatch (S f) st p input j env'
             = any_behaviour 0%nat (partialMatch (S f) st) input j env')
    by (intros j env'; now rewrite (partialMatch_step _ _ _ _ _ _ _ Hp)).
  destruct (times_reps_any (partialMatch (S f) st) p input k
              (times_init i env) Hcall) as (s' & Hreps & Hidx & Hvals);
    [cbn; lia | cbn; lia |].
  cbn [times_init ts_index ts_successes app] in Hidx, Hvals.
  assert (Hend : ts_index s' = Str.len input) by lia.
  rewrite (times_soft_stop (partialMatch (S f) st) p None input
             (Finite min) Infinity i env k fuel s' Hreps).
  - now rewrite Hend, Hvals.
  - cbn. apply Z.ltb_ge. lia.
  - reflexivity.
  - right. exists (Failure (Str.len input) [VStr "any character"]).
    split; [|reflexivity].
    rewrite Hcall, Hend. unfold any_behaviour.
    destruct (Z.geb_spec (Str.len input) (Str.len input)); [reflexivity|lia].
  - exact Hfuel.
Qed.

Lemma times_any_consumes_all_witness :
  times_behaviour Partser.any (Finite 0) Infinity None 4%nat
    (partialMatch 1 Partser.initial) "abc" 1 VUndefined
  = Ret (Success 3 (VArr [VStr "b"; VStr "c"])).
Proof.
  exact (times_any_consumes_all Partser.initial Partser.any "any" "abc" 1 0
           VUndefined 0%nat 4%nat initial_any
           ltac:(vm_compute; split; discriminate)
           ltac:(vm_compute; discriminate)
           ltac:(vm_compute; lia)).
Defined.

(** ** [string] at any cursor, and sequences of literals *)

Lemma substring_beyond (s : string) (a m : nat) :
  (String.length s <= a)%nat -> substring a m s = "".
Proof.
  revert a m. induction s as [|c s IH]; intros [|a] [|m] Hle; simpl in *;
    auto; try lia; apply IH; lia.
Qed.

Lemma substring_clamp_at (s : string) (a m : nat) :
  substring a (Nat.min m (String.length s - a)) s = substring a m s.
Proof.
  revert a m. induction s as [|c s IH]; intros a m.
  - now destruct a, m.
  - destruct a as [|a].
    + destruct m as [|m]; [reflexivity|].
      cbn [String.length Nat.sub Nat.min substring].
      rewrite <- (IH 0%nat m). now rewrite Nat.sub_0_r.
    + cbn [String.length Nat.sub]. 
      change (substring (S a) ?n (String c s)) with (substring a n s).
      apply IH.
Qed.

(** From a cursor that is not negative, [slice] is the plain substring. *)
Lemma slice_substring (input : string) (i : Z) (n : nat) :
  0 <= i ->
  Str.slice input i (i + Z.of_nat n) = substring (Z.to_nat i) n input.
Proof.
  intros Hi. unfold Str.slice, Str.relIndex.
  pose proof (len_nonneg input) as HL.
  destruct (Z.ltb_spec i 0) as [Hneg|_]; [lia|].
  destruct (Z.ltb_spec (i + Z.of_nat n) 0) as [Hneg|_]; [lia|].
  destruct (Z.le_gt_cases i (Str.len input)) as [Hin|Hout].
  - rewrite (Z.min_l i) by lia.
    rewrite <- (substring_clamp_at input (Z.to_nat i) n). f_equal.
    unfold Str.len in *. lia.
  - rewrite (substring_beyond input (Z.to_nat i)) by (unfold Str.len in *; lia).
    rewrite !Z.min_r by lia. rewrite Z.sub_diag. apply substring_none.
Qed.

Lemma substring_add (s : string) (a n m : nat) :
  substring a (n + m) s = substring a n s ++ substring (a + n) m s.
Proof.
  revert a n. induction s as [|c s IH]; intros a n.
  - destruct a, n, m; reflexivity.
  - destruct a as [|a].
    + destruct n as [|n]; [reflexivity|].
      simpl. now rewrite (IH 0%nat n).
    + simpl. apply IH.
Qed.

Lemma append_inj_length (a a' b b' : string) :
  String.length a = String.length a' ->
  a ++ b = a' ++ b' -> a = a' /\ b = b'.
Proof.
  revert a'. induction a as [|x a IH]; intros [|x' a'] Hlen Heq;
    simpl in *; try discriminate; auto.
  injection Heq as <- Heq. destruct (IH a') as [-> ->]; auto.
Qed.

Lemma string_behaviour_at (s input : string) (fuel : nat) (call : Call)
  (i : Z) (env : Env) :
  0 <= i ->
  string_behaviour s fuel call input i env
  = if String.eqb (substring (Z.to_nat i) (String.length s) input) s
    then Ret (Success (i + Str.len s) (VStr s))
    else Ret (Failure i [VStr ("'" ++ s ++ "'")]).
Proof.
  intros Hi. unfold string_behaviour.
  change (Str.len s) with (Z.of_nat (String.length s)).
  rewrite (slice_substring input i (String.length s) Hi).
  destruct (String.eqb_spec (substring (Z.to_nat i) (String.length s) input) s)
    as [Heq|Hne]; [now rewrite Heq | reflexivity].
Qed.

(** X13.  A sequence of two literals accepts what the literal of their
    concatenation accepts: from a cursor that is not negative,
    [seq([string(a), string(b)])] succeeds exactly when [string(a + b)]
    succeeds; the former then returns the pair [[a, b]], the latter the
    text [a + b], both at the cursor moved by the two lengths. *)
Theorem seq_strings_concat (st : Store) (pa pb : loc) (na nb a b : string)
  (f fuel : nat) (input : string) (i : Z) (env : Env) :
  st !! pa = Some (mkParserObj na (string_behaviour a)) ->
  st !! pb = Some (mkParserObj nb (string_behaviour b)) ->
  0 <= i ->
  let both := seq_behaviour [pa; pb] None fuel (partialMatch (S f) st)
                input i env in
  let joined := string_behaviour (a ++ b) fuel (partialMatch (S f) st)
                  input i env in
  (both = Ret (Success (i + Str.len a + Str.len b) (VArr [VStr a; VStr b]))
   /\ joined = Ret (Success (i + Str.len a + Str.len b) (VStr (a ++ b))))
  \/ ((exists j e, both = Ret (Failure j e))
      /\ joined = Ret (Failure i [VStr ("'" ++ (a ++ b) ++ "'")])).
Proof.
  intros Hpa Hpb Hi both joined. subst both joined.
  pose proof (len_nonneg a) as Hla.
  unfold seq_behaviour. cbn [seq_loop].
  rewrite (partialMatch_step _ _ _ _ _ _ _ Hpa). cbn [behaviour].
  rewrite !string_behaviour_at by lia.
  rewrite length_append, substring_add.
  replace (Z.to_nat i + String.length a)%nat with (Z.to_nat (i + Str.len a))
    by (unfold Str.len; lia).
  assert (Hlens : Str.len (a ++ b) = Str.len a + Str.len b)
    by (unfold Str.len; rewrite length_append; lia).
  destruct (String.eqb_spec (substring (Z.to_nat i) (String.length a) input) a)
    as [Ha|Ha].
  - rewrite bind_Ret, mergeOver_success.
    cbn [status negb index value applyChainEnv app].
    rewrite (partialMatch_step _ _ _ _ _ _ _ Hpb). cbn [behaviour].
    rewrite string_behaviour_at by lia.
    destruct (String.eqb_spec
                (substring (Z.to_nat (i + Str.len a)) (String.length b) input)
                b) as [Hb|Hb].
    + left. rewrite bind_Ret, mergeOver_success.
      cbn [status negb index value applyChainEnv app].
      rewrite mergeOver_success, Ha, Hb, String.eqb_refl, Hlens.
      split; [reflexivity | now rewrite Z.add_assoc].
    + right. rewrite bind_Ret.
      assert (Hs : status (mergeOver
                             (Failure (i + Str.len a) [VStr ("'" ++ b ++ "'")])
                             (Some (Success (i + Str.len a) (VStr a))))
                   = false) by now rewrite mergeOver_status.
      rewrite Hs. cbn [negb]. split.
      * destruct (mergeOver _ _) as [j v|j e]; [discriminate Hs|]. eauto.
      * rewrite Ha.
        destruct (String.eqb_spec
                    (a ++ substring (Z.to_nat (i + Str.len a))
                            (String.length b) input) (a ++ b)) as [Heq|_];
          [|reflexivity].
        apply append_inj_length in Heq as [_ Heq]; [contradiction|reflexivity].
  - right. rewrite bind_Ret. cbn [mergeOver status negb]. split; [eauto|].
    destruct (String.eqb_spec
                (substring (Z.to_nat i) (String.length a) input
                 ++ substring (Z.to_nat (i + Str.len a)) (String.length b)
                      input) (a ++ b)) as [Heq|_]; [|reflexivity].
    exfalso. apply Ha.
    assert (Hlen : String.length
                     (substring (Z.to_nat i) (String.length a) input)
                   = String.length a).
    { pose proof (f_equal String.length Heq) as Hl.
      rewrite !length_append in Hl.
      rewrite !substring_length in *. lia. }
    now apply append_inj_length in Heq as [Heq _].
Qed.

Lemma seq_strings_concat_witness :
  let st : Store :=
    <[7%positive := mkParserObj "string" (string_behaviour "cd")]>
      (<[6%positive := mkParserObj "string" (string_behaviour "ab")]>
         Partser.initial) in
  let both := seq_behaviour [6%positive; 7%positive] None 0%nat
                (partialMatch 1 st) "abcd" 0 VUndefined in
  let joined := string_behaviour ("ab" ++ "cd") 0%nat (partialMatch 1 st)
                  "abcd" 0 VUndefined in
  (both = Ret (Success (0 + Str.len "ab" + Str.len "cd")
                 (VArr [VStr "ab"; VStr "cd"]))
   /\ joined = Ret (Success (0 + Str.len "ab" + Str.len "cd")
                      (VStr ("ab" ++ "cd"))))
  \/ ((exists j e, both = Ret (Failure j e))
      /\ joined = Ret (Failure 0 [VStr ("'" ++ ("ab" ++ "cd") ++ "'")])).
Proof.
  intros st.
  exact (seq_strings_concat st 6%positive 7%positive "string" "string"
           "ab" "cd" 0%nat 0%nat "abcd" 0 VUndefined eq_refl eq_refl
           ltac:(discriminate)).
Defined.

(** ** Argument checks at construction *)




(** * Properties of slices with context *)

Lemma substring_substring (s : string) (b m a n : nat) :
  (a + n <= m)%nat ->
  substring a n (substring b m s) = substring (b + a) n s.
Proof.
  revert b m a n. induction s as [|c s IH]; intros b m a n Hle.
  - destruct b, m, a, n; reflexivity.
  - destruct b as [|b].
    + destruct m as [|m].
      * assert (a = 0%nat /\ n = 0%nat) as [-> ->] by lia. reflexivity.
      * destruct a as [|a].
        -- destruct n as [|n]; [reflexivity|].
           cbn [substring Nat.add]. f_equal.
           apply (IH 0%nat m 0%nat n). lia.
        -- cbn [substring Nat.add]. apply (IH 0%nat m a n). lia.
    + cbn [substring Nat.add]. apply (IH b m a n). exact Hle.
Qed.

(** A slice of a slice is a slice of the text, when all of it lies
    within the text. *)
Lemma slice_slice (s : string) (b m a n : Z) :
  0 <= b -> 0 <= a -> 0 <= n -> a + n <= m ->
  Str.slice (Str.slice s b (b + m)) a (a + n) = Str.slice s (b + a) (b + a + n).
Proof.
  intros Hb Ha Hn Hle.
  replace m with (Z.of_nat (Z.to_nat m)) by lia.
  replace n with (Z.of_nat (Z.to_nat n)) by lia.
  rewrite !slice_substring by lia.
  rewrite substring_substring by lia. f_equal. lia.
Qed.

Lemma slice_len_within (s : string) (a n : Z) :
  0 <= a -> 0 <= n -> a + n <= Str.len s ->
  Str.len (Str.slice s a (a + n)) = n.
Proof.
  intros Ha Hn Hle. rewrite slice_len. unfold Str.relIndex.
  destruct (Z.ltb_spec a 0), (Z.ltb_spec (a + n) 0); lia.
Qed.

Section SliceProperties.

Import SliceWithContext.

(** X15.  [sliceWithContext] throws a [RangeError] exactly when the
    requested slice does not lie within the text (a negative offset, or
    an end beyond the end of the text); otherwise it returns a result
    whose [fullSlice] is the requested slice, of [length] characters,
    and whose [fit] tells whether [length] is at most the window size. *)
Theorem sliceWithContext_range (inputText : string)
  (windowSize offset length : Z) (left right : Scaling) :
  (offset < 0 \/ Str.len inputText < offset + length
   <-> exists msg,
       sliceWithContext inputText windowSize offset length left right
       = RangeError msg)
  /\ (0 <= offset -> offset + length <= Str.len inputText ->
      exists r,
        sliceWithContext inputText windowSize offset length left right
        = Returned r
        /\ fullSlice r = Str.slice inputText offset (offset + length)
        /\ (0 <= length -> Str.len (fullSlice r) = length)
        /\ (fit r = true <-> length <= windowSize)).
Proof.
  unfold sliceWithContext.
  destruct (Z.ltb_spec offset 0) as [Hneg|Hoff].
  - split; [split; eauto | lia].
  - destruct (Z.gtb_spec (offset + length) (Str.len inputText)) as [Hbig|Hin].
    + split; [split; [eauto | lia] | lia].
    + split.
      * split; [lia|]. intros [msg H].
        destruct (length <=? windowSize); discriminate H.
      * intros _ _.
        destruct (Z.leb_spec length windowSize) as [Hfit|Hover];
          eexists; (split; [reflexivity|]); cbn [fullSlice fit];
          (split; [reflexivity|]);
          (split; [intros H0; apply slice_len_within; lia|]);
          split; auto; try lia; discriminate.
Qed.

(** X16.  When the slice fits in the window and the text is at least as
    long as the window, the result shows a window of exactly
    [windowSize] characters of the text that contains the slice:
    [withContext] is the part of the text that starts [position.offset]
    characters before the slice, the slice is found in it at
    [position.offset] with [position.length] characters, and
    [visibleSlice] is the whole slice. *)
Theorem sliceWithContext_fits (inputText : string)
  (windowSize offset length : Z) (left right : Scaling) :
  proper left ->
  0 <= offset -> 0 <= length -> offset + length <= Str.len inputText ->
  length <= windowSize -> windowSize <= Str.len inputText ->
  exists r,
    sliceWithContext inputText windowSize offset length left right
    = Returned r
    /\ fit r = true
    /\ Str.len (withContext r) = windowSize
    /\ 0 <= SliceWithContext.offset (position r) <= offset
    /\ SliceWithContext.offset (position r) + length <= windowSize
    /\ SliceWithContext.length (position r) = length
    /\ withContext r
       = Str.slice inputText (offset - SliceWithContext.offset (position r))
           (offset - SliceWithContext.offset (position r) + windowSize)
    /\ Str.slice (withContext r) (SliceWithContext.offset (position r))
         (SliceWithContext.offset (position r)
          + SliceWithContext.length (position r))
       = fullSlice r
    /\ visibleSlice r = fullSlice r.
Proof.
  intros Hleft Hoff Hlen Hin Hfit Hwin. unfold sliceWithContext.
  destruct (Z.ltb_spec offset 0) as [Hneg|_]; [lia|].
  destruct (Z.gtb_spec (offset + length) (Str.len inputText)) as [Hbig|_];
    [lia|].
  destruct (Z.leb_spec length windowSize) as [_|Hover]; [|lia].
  eexists. split; [reflexivity|].
  cbn [fit withContext visibleSlice fullSlice position
       SliceWithContext.offset SliceWithContext.length].
  pose proof (Hleft (windowSize - length) ltac:(lia)) as Hscale.
  set (left0 := Z.min (left (windowSize - length)) offset).
  set (rightLen := Z.min (windowSize - length - left0)
                         (Str.len inputText - offset - length)).
  set (leftLen := windowSize - length - rightLen).
  assert (Hl0 : 0 <= left0 <= offset /\ left0 <= windowSize - length)
    by (subst left0; lia).
  assert (Hr : 0 <= rightLen <= Str.len inputText - offset - length
               /\ rightLen <= windowSize - length - left0)
    by (subst rightLen; lia).
  assert (Hl : 0 <= leftLen <= offset) by (subst leftLen rightLen; lia).
  replace (length + leftLen + rightLen) with windowSize by (subst leftLen; lia).
  assert (Hvis : Str.slice
                   (Str.slice inputText (offset - leftLen)
                      (offset - leftLen + windowSize))
                   leftLen (leftLen + length)
                 = Str.slice inputText offset (offset + length)).
  { rewrite slice_slice by lia. f_equal; lia. }
  split; [reflexivity|].
  split; [apply slice_len_within; lia|].
  split; [exact Hl|]. split; [subst leftLen; lia|].
  split; [reflexivity|]. split; [reflexivity|].
  split; exact Hvis.
Qed.

Lemma sliceWithContext_fits_witness :
  exists r,
    sliceWithContext "hello world, hello" 10 6 5 (ratio 3 4) (ratio 0 1)
    = Returned r
    /\ fit r = true
    /\ Str.len (withContext r) = 10
    /\ 0 <= SliceWithContext.offset (position r) <= 6
    /\ SliceWithContext.offset (position r) + 5 <= 10
    /\ SliceWithContext.length (position r) = 5
    /\ withContext r
       = Str.slice "hello world, hello"
           (6 - SliceWithContext.offset (position r))
           (6 - SliceWithContext.offset (position r) + 10)
    /\ Str.slice (withContext r) (SliceWithContext.offset (position r))
         (SliceWithContext.offset (position r)
          + SliceWithContext.length (position r))
       = fullSlice r
    /\ visibleSlice r = fullSlice r.
Proof.
  apply sliceWithContext_fits; try (vm_compute; discriminate).
  intros n Hn. unfold ratio.
  split; [apply Z.div_pos; lia | apply Z.div_le_upper_bound; lia].
Defined.

(** X17.  When the slice is longer than the window, no context is shown
    and the slice is truncated to the window: [withContext] and
    [visibleSlice] are the same [windowSize] characters of the slice,
    taken from a position between its start and the last position that
    leaves room for the window, and [position] is the whole window. *)
Theorem sliceWithContext_overflows (inputText : string)
  (windowSize offset length : Z) (left right : Scaling) :
  proper right ->
  0 <= offset -> offset + length <= Str.len inputText ->
  0 <= windowSize -> windowSize < length ->
  exists r t,
    sliceWithContext inputText windowSize offset length left right
    = Returned r
    /\ fit r = false
    /\ t = right (length - windowSize)
    /\ 0 <= t <= length - windowSize
    /\ withContext r = Str.slice (fullSlice r) t (t + windowSize)
    /\ withContext r
       = Str.slice inputText (offset + t) (offset + t + windowSize)
    /\ visibleSlice r = withContext r
    /\ Str.len (withContext r) = windowSize
    /\ position r = mkPosition 0 windowSize.
Proof.
  intros Hright Hoff Hin Hwin Hover. unfold sliceWithContext.
  destruct (Z.ltb_spec offset 0) as [Hneg|_]; [lia|].
  destruct (Z.gtb_spec (offset + length) (Str.len inputText)) as [Hbig|_];
    [lia|].
  destruct (Z.leb_spec length windowSize) as [Hfit|_]; [lia|].
  assert (Hfull : Str.len (Str.slice inputText offset (offset + length))
                  = length) by (apply slice_len_within; lia).
  rewrite Hfull.
  pose proof (Hright (length - windowSize) ltac:(lia)) as Ht.
  eexists. exists (right (length - windowSize)).
  split; [reflexivity|].
  cbn [fit withContext visibleSlice fullSlice position].
  split; [reflexivity|]. split; [reflexivity|]. split; [exact Ht|].
  split; [reflexivity|].
  assert (Hpart : Str.slice (Str.slice inputText offset (offset + length))
                    (right (length - windowSize))
                    (right (length - windowSize) + windowSize)
                  = Str.slice inputText
                      (offset + right (length - windowSize))
                      (offset + right (length - windowSize) + windowSize))
    by (apply slice_slice; lia).
  split; [exact Hpart|]. split; [reflexivity|].
  split; [|reflexivity].
  rewrite Hpart. apply slice_len_within; lia.
Qed.

Lemma sliceWithContext_overflows_witness :
  exists r t,
    sliceWithContext "hello world, hello" 3 6 5 (ratio 3 4) (ratio 0 1)
    = Returned r
    /\ fit r = false
    /\ t = ratio 0 1 (5 - 3)
    /\ 0 <= t <= 5 - 3
    /\ withContext r = Str.slice (fullSlice r) t (t + 3)
    /\ withContext r = Str.slice "hello world, hello" (6 + t) (6 + t + 3)
    /\ visibleSlice r = withContext r
    /\ Str.len (withContext r) = 3
    /\ position r = mkPosition 0 3.
Proof.
  apply sliceWithContext_overflows; try (vm_compute; discriminate).
  - intros n Hn. unfold ratio. rewrite Z.mul_0_r, Zdiv_0_l. lia.
  - reflexivity.
Defined.

(** X18.  When the text is shorter than the window, the left context is
    computed as if the window were full: the reported [position.offset]
    is the offset of the slice plus the number of characters the text
    falls short of the window, whatever the bias.  With a window at
    least twice as long as the text, [withContext] is the whole text,
    the reported position lies beyond its end and [visibleSlice] is
    empty. *)
Theorem sliceWithContext_short_text (inputText : string)
  (windowSize offset length : Z) (left right : Scaling) :
  0 <= offset -> 0 <= length -> offset + length <= Str.len inputText ->
  Str.len inputText < windowSize ->
  exists r,
    sliceWithContext inputText windowSize offset length left right
    = Returned r
    /\ fit r = true
    /\ SliceWithContext.offset (position r)
       = offset + (windowSize - Str.len inputText)
    /\ withContext r
       = Str.slice inputText (Str.len inputText - windowSize)
           (Str.len inputText)
    /\ (2 * Str.len inputText <= windowSize ->
        withContext r = inputText
        /\ Str.len (withContext r) <= SliceWithContext.offset (position r)
        /\ visibleSlice r = "").
Proof.
  intros Hoff Hlen Hin Hshort. unfold sliceWithContext.
  destruct (Z.ltb_spec offset 0) as [Hneg|_]; [lia|].
  destruct (Z.gtb_spec (offset + length) (Str.len inputText)) as [Hbig|_];
    [lia|].
  destruct (Z.leb_spec length windowSize) as [_|Hover]; [|lia].
  eexists. split; [reflexivity|].
  cbn [fit withContext visibleSlice fullSlice position
       SliceWithContext.offset].
  set (left0 := Z.min (left (windowSize - length)) offset).
  assert (Hright : Z.min (windowSize - length - left0)
                         (Str.len inputText - offset - length)
                   = Str.len inputText - offset - length)
    by (subst left0; lia).
  rewrite Hright.
  replace (windowSize - length - (Str.len inputText - offset - length))
    with (offset + (windowSize - Str.len inputText)) by lia.
  replace (offset - (offset + (windowSize - Str.len inputText)))
    with (Str.len inputText - windowSize) by lia.
  replace (Str.len inputText - windowSize
           + (length + (offset + (windowSize - Str.len inputText))
              + (Str.len inputText - offset - length)))
    with (Str.len inputText) by lia.
  split; [reflexivity|]. split; [reflexivity|]. split; [reflexivity|].
  intros Htwice.
  pose proof (len_nonneg inputText) as HL.
  assert (Hwhole : Str.slice inputText (Str.len inputText - windowSize)
                     (Str.len inputText) = inputText).
  { unfold Str.slice, Str.relIndex.
    destruct (Z.ltb_spec (Str.len inputText - windowSize) 0); [|lia].
    destruct (Z.ltb_spec (Str.len inputText) 0); [lia|].
    rewrite Z.max_r by lia. rewrite Z.min_id, Z.sub_0_r, Z.max_l by lia.
    cbn [Z.to_nat]. unfold Str.len. rewrite Nat2Z.id. apply substring_all. }
  rewrite Hwhole. split; [reflexivity|]. split; [lia|].
  unfold Str.slice, Str.relIndex.
  destruct (Z.ltb_spec (offset + (windowSize - Str.len inputText)) 0); [lia|].
  destruct (Z.ltb_spec (offset + (windowSize - Str.len inputText) + length) 0);
    [lia|].
  rewrite !Z.min_r by lia. rewrite Z.sub_diag. apply substring_none.
Qed.

Lemma sliceWithContext_short_text_witness :
  exists r,
    sliceWithContext "a" 10 0 1 (ratio 3 4) (ratio 0 1) = Returned r
    /\ fit r = true
    /\ SliceWithContext.offset (position r) = 0 + (10 - Str.len "a")
    /\ withContext r = Str.slice "a" (Str.len "a" - 10) (Str.len "a")
    /\ (2 * Str.len "a" <= 10 ->
        withContext r = "a"
        /\ Str.len (withContext r) <= SliceWithContext.offset (position r)
        /\ visibleSlice r = "").
Proof.
  apply sliceWithContext_short_text; vm_compute; try discriminate; reflexivity.
Defined.

End SliceProperties.

(** * Properties of the tracer's helpers *)

Lemma replaceUnprintable_printable (c : N) :
  (32 < replaceUnprintable c)%N.
Proof.
  unfold replaceUnprintable.
  destruct (N.eqb_spec c 10); [lia|].
  destruct (N.eqb_spec c 9); [lia|].
  destruct (N.eqb_spec c 32); [lia|].
  destruct (N.leb_spec c 31); lia.
Qed.

Lemma replaceUnprintable_keeps (c : N) :
  (32 < c)%N -> replaceUnprintable c = c.
Proof.
  intros Hc. unfold replaceUnprintable.
  destruct (N.eqb_spec c 10); [lia|].
  destruct (N.eqb_spec c 9); [lia|].
  destruct (N.eqb_spec c 32); [lia|].
  destruct (N.leb_spec c 31); [lia | reflexivity].
Qed.

(** X19.  [replaceUnprintables] replaces character by character: the
    result has the length of the text, holds no control character,
    tab, newline or space any more, keeps every other character at its
    position, and is not changed by a second pass. *)
Theorem replaceUnprintables_positions (str : list N) :
  length (replaceUnprintables str) = length str
  /\ Forall (fun c => (32 < c)%N) (replaceUnprintables str)
  /\ (forall n c,
         nth_error str n = Some c -> (32 < c)%N ->
         nth_error (replaceUnprintables str) n = Some c)
  /\ replaceUnprintables (replaceUnprintables str) = replaceUnprintables str.
Proof.
  unfold replaceUnprintables. split; [apply length_map|]. split; [|split].
  - induction str as [|c str IH]; constructor;
      [apply replaceUnprintable_printable | exact IH].
  - intros n c Hn Hc. rewrite nth_error_map, Hn. cbn.
    now rewrite replaceUnprintable_keeps.
  - rewrite List.map_map. apply List.map_ext. intros c.
    apply replaceUnprintable_keeps, replaceUnprintable_printable.
Qed.

(** * Further properties of the primitives *)

(** X20.  [test(predicate)] succeeds exactly where [any] succeeds and
    the predicate holds of the character read, and then returns [any]'s
    result; where it fails, the failure is at the start cursor. *)
Theorem test_refines_any (predicate : string -> Env -> bool) (text : string)
  (fuel : nat) (call : Call) (input : string) (i : Z) (env : Env) :
  (forall j v,
      test_behaviour predicate text fuel call input i env = Ret (Success j v)
      <-> any_behaviour fuel call input i env = Ret (Success j v)
          /\ predicate (Str.charAt input i) env = true)
  /\ (forall j e,
         test_behaviour predicate text fuel call input i env
         = Ret (Failure j e) ->
         j = i /\ e = [VStr ("a character matching " ++ text)]).
Proof.
  unfold test_behaviour, any_behaviour.
  destruct (Z.ltb_spec i (Str.len input)) as [Hlt|Hge];
    destruct (Z.geb_spec i (Str.len input)) as [Hge'|Hlt']; try lia;
    cbn [andb].
  - destruct (predicate (Str.charAt input i) env); split.
    + intros j v. split; [now intros H | now intros [H _]].
    + discriminate.
    + intros j v. split; [discriminate | now intros [_ H]].
    + now intros j e [= <- <-].
  - split.
    + intros j v. split; [discriminate | now intros [H _]].
    + now intros j e [= <- <-].
Qed.

(** X21.  The complete parse of [all] succeeds on every text from every
    start index: [all] moves the cursor to the end of the input, where
    [eof] succeeds, and the value is the rest of the text. *)
Theorem all_complete_parse (st : Store) (name : string) (f : nat)
  (input : string) (env : Env) (i : Z) :
  st !! Partser.all = Some (mkParserObj name all_behaviour) ->
  eofIntact st ->
  Partser.parse (S (S (S f))) st Partser.all input env i
  = Ret (Success (Str.len input) (VStr (Str.sliceFrom input i))).
Proof.
  intros Hall Heof.
  rewrite (parse_unfold st Partser.all _ f input env i Hall Heof).
  destruct Heof as [n He].
  destruct (skip_parser_eof st Partser.all _ _ Hall He)
    as (sq & m & _ & _ & _ & Hold).
  rewrite (partialMatch_step _ _ _ _ _ _ _ (Hold _ _ Hall)).
  cbn [behaviour]. unfold all_behaviour, makeSuccess.
  now rewrite Z.ltb_irrefl.
Qed.

Lemma all_complete_parse_witness :
  Partser.parse 3 Partser.initial Partser.all "ashldflasdhfl" VUndefined 0
  = Ret (Success (Str.len "ashldflasdhfl")
           (VStr (Str.sliceFrom "ashldflasdhfl" 0))).
Proof.
  exact (all_complete_parse Partser.initial "all" 0%nat "ashldflasdhfl"
           VUndefined 0 initial_all eofIntact_initial).
Defined.

(** X22.  When the lookup of [from] returns a value that is not a
    parser, running the parser throws a [TypeError]; the mistake is
    never turned into a parse failure. *)
Theorem from_not_a_parser (st : Store) (p : loc) (name : string)
  (lookup : Env -> loc) (fuel : nat) (input : string) (i : Z) (env : Env) :
  st !! p = Some (mkParserObj name (from_behaviour lookup)) ->
  st !! lookup env = None ->
  exists msg,
    partialMatch (S (S fuel)) st p input i env = Throw (TypeError msg).
Proof.
  intros Hp Hnone.
  rewrite (partialMatch_step _ _ _ _ _ _ _ Hp). cbn [behaviour].
  unfold from_behaviour, partialMatch. rewrite Hnone. eauto.
Qed.

Lemma from_not_a_parser_witness :
  exists msg,
    partialMatch 2
      (<[6%positive := mkParserObj "from" (from_behaviour (fun _ => 9%positive))]>
         Partser.initial)
      6%positive "a" 0 VUndefined
    = Throw (TypeError msg).
Proof.
  exact (from_not_a_parser
           (<[6%positive := mkParserObj "from"
                              (from_behaviour (fun _ => 9%positive))]>
              Partser.initial)
           6%positive "from" (fun _ => 9%positive) 0%nat
           "a" 0 VUndefined eq_refl eq_refl).
Defined.

(** * Instances *)

Lemma except_result_witness :
  except_behaviour Partser.any 6%positive 0%nat
    (partialMatch 1
       (<[6%positive := mkParserObj "string" (string_behaviour "b")]>
          Partser.initial))
    "b" 0 VUndefined
  = Ret (Failure 0 [VStr ("something that is not '" ++ toString (VStr "b")
                          ++ "'")]).
Proof.
  exact (proj2 (proj2 (except_result Partser.any 6%positive 0%nat
                         (partialMatch 1
                            (<[6%positive := mkParserObj "string"
                                               (string_behaviour "b")]>
                               Partser.initial))
                         "b" 0 VUndefined))
               1 (VStr "b") eq_refl).
Defined.

Lemma chain_seq_witness :
  chain_behaviour Partser.any (fun _ _ => Partser.eof) 0%nat
    (partialMatch 1 Partser.initial) "a" 0 VUndefined
  = Ret (Success 1 VNull).
Proof.
  apply (proj1 (chain_seq Partser.any Partser.eof
                  (partialMatch 1 Partser.initial) 0%nat "a" 0 VUndefined)
               1 VNull).
  exists (VStr "a"). reflexivity.
Defined.

Lemma sliceWithContext_range_witness :
  exists r,
    SliceWithContext.sliceWithContext "hello world" 5 6 5
      (SliceWithContext.ratio 1 2) (SliceWithContext.ratio 1 1)
    = SliceWithContext.Returned r
    /\ SliceWithContext.fullSlice r = Str.slice "hello world" 6 (6 + 5)
    /\ (0 <= 5 -> Str.len (SliceWithContext.fullSlice r) = 5)
    /\ (SliceWithContext.fit r = true <-> 5 <= 5).
Proof.
  apply (proj2 (sliceWithContext_range "hello world" 5 6 5
                  (SliceWithContext.ratio 1 2) (SliceWithContext.ratio 1 1)));
    vm_compute; discriminate.
Defined.

Lemma test_refines_any_witness :
  test_behaviour (fun c _ => String.eqb c "a") "isA" 0%nat
    (partialMatch 0 Partser.initial) "ab" 0 VUndefined
  = Ret (Success 1 (VStr "a")).
Proof.
  apply (proj1 (test_refines_any (fun c _ => String.eqb c "a") "isA" 0%nat
                  (partialMatch 0 Partser.initial) "ab" 0 VUndefined)
               1 (VStr "a")).
  split; reflexivity.
Defined.
